(** * A shallow embedding of the LZip gzip decompressor (src/src/main.c)

    Bytes and machine integers are [Z]; C's [unsigned] arithmetic is written
    out modulo [2^32], [unsigned char] modulo [2^8].  The [FILE*] input, the
    bit buffer of [bit_stream] and the output file descriptor are one record,
    [world], threaded explicitly through the decoder.  Operations that can
    hit undefined behaviour in C (NULL dereference in a trie walk, reading
    before or writing past the 32768-byte block buffer, an out-of-range table
    index, a failed [assert]) return a [fault] in the [res] monad. *)

From Stdlib Require Import ZArith List Lia Bool.
Import ListNotations.
Open Scope Z_scope.
Set Warnings "-register-all".

(** ** World: the input [FILE*], [bit_stream] and the output file *)

Record world := mkWorld {
  w_src : list Z;     (** bytes the [FILE*] has not delivered yet *)
  w_eof : bool;       (** [feof(source)] *)
  w_buf : Z;          (** [stream->buf] (unsigned char) *)
  w_mask : Z;         (** [stream->mask] (unsigned char) *)
  w_out : list Z      (** bytes written to [fd] so far *)
}.

(** [fread(&stream->buf, 1, 1, source)]: on failure nothing is stored in
    [buf] and the end-of-file indicator is set. *)
Definition fread_buf (w : world) : world :=
  match w_src w with
  | [] => mkWorld [] true (w_buf w) (w_mask w) (w_out w)
  | b :: rest => mkWorld rest (w_eof w) b (w_mask w) (w_out w)
  end.

Definition set_mask (m : Z) (w : world) : world :=
  mkWorld (w_src w) (w_eof w) (w_buf w) m (w_out w).

(** [next_bit]: the [perror] on a failed read only prints. *)
Definition next_bit (w : world) : Z * world :=
  let bit := if Z.land (w_buf w) (w_mask w) =? 0 then 0 else 1 in
  let mask := Z.shiftl (w_mask w) 1 mod 2 ^ 8 in
  let w1 := set_mask mask w in
  if mask =? 0 then (bit, fread_buf (set_mask 1 w1)) else (bit, w1).

(** [read_bits]: [bits_value = (bits_value << 1) | next_bit(stream)]. *)
Fixpoint read_bits_loop (k : nat) (v : Z) (w : world) : Z * world :=
  match k with
  | O => (v, w)
  | S k' =>
      let (b, w1) := next_bit w in
      read_bits_loop k' (Z.lor (Z.shiftl v 1 mod 2 ^ 32) b) w1
  end.

Definition read_bits (w : world) (numof_bits : nat) : Z * world :=
  read_bits_loop numof_bits 0 w.

(** [read_bits_and_invert]: [bits_value |= (next_bit(stream) << i)] for
    [i = 0 .. numof_bits-1]; [k] counts the iterations left. *)
Fixpoint read_bits_and_invert_loop (i k : nat) (v : Z) (w : world) : Z * world :=
  match k with
  | O => (v, w)
  | S k' =>
      let (b, w1) := next_bit w in
      read_bits_and_invert_loop (S i) k'
        (Z.lor v (Z.shiftl b (Z.of_nat i) mod 2 ^ 32)) w1
  end.

Definition read_bits_and_invert (w : world) (numof_bits : nat) : Z * world :=
  read_bits_and_invert_loop 0 numof_bits 0 w.

(** The bits [next_bit] delivers, in consumption order. *)
Fixpoint next_bits (n : nat) (w : world) : list Z * world :=
  match n with
  | O => ([], w)
  | S n' =>
      let (b, w1) := next_bit w in
      let (bs, w2) := next_bits n' w1 in (b :: bs, w2)
  end.

(** Value of a bit sequence whose first bit is bit 0: [Σ b_i 2^i]. *)
Fixpoint lsb_value (bs : list Z) : Z :=
  match bs with
  | [] => 0
  | b :: bs' => b + 2 * lsb_value bs'
  end.

(** Value of a bit sequence whose first bit is the most significant. *)
Fixpoint msb_value_acc (acc : Z) (bs : list Z) : Z :=
  match bs with
  | [] => acc
  | b :: bs' => msb_value_acc (2 * acc + b) bs'
  end.

Definition msb_value (bs : list Z) : Z := msb_value_acc 0 bs.

(** ** Faults and the result type *)

Inductive fault :=
| NullChild         (** a trie walk followed a NULL [lhs]/[rhs] *)
| BufferUnderflow   (** [backptr] points before the block buffer [buf] *)
| BufferOverflow    (** a write past the 32768-byte block buffer [buf] *)
| HeapOverflow      (** a write past the malloc'ed [alphabet] *)
| HeapOverread      (** a read outside the malloc'ed [alphabet] *)
| TableIndex        (** an index outside a fixed table or [ranges[-1]] *)
| AssertFailed      (** a failed [assert] *)
| Uninitialised     (** use of an uninitialised local *)
| OutOfFuel.        (** the model's iteration bound was exhausted *)

Inductive res (A : Type) : Type :=
| Ok : A -> res A
| Fault : fault -> res A.
Arguments Ok {A} _.
Arguments Fault {A} _.

Definition res_bind {A B : Type} (m : res A) (k : A -> res B) : res B :=
  match m with
  | Ok a => k a
  | Fault f => Fault f
  end.

Notation "'let*' x ':=' m 'in' k" := (res_bind m (fun x => k))
  (at level 200, x name, m at level 100, k at level 200).
Notation "'let*' ' p ':=' m 'in' k" :=
  (res_bind m (fun x => match x with p => k end))
  (at level 200, p pattern, m at level 100, k at level 200).

(** ** Huffman construction: [build_huffman_tree] *)

Record huffman_range := mkRange { range_end : nat; range_bits : nat }.
Record tree_node := mkTN { tn_code : Z; tn_bit_length : nat }.

(** [struct huffman_node]: [code] is [-1] on interior nodes; a NULL child
    is [None]. *)
Inductive huffman_node :=
| HNode (code : Z) (lhs rhs : option huffman_node).

Definition node_code (n : huffman_node) : Z := match n with HNode c _ _ => c end.

(** A freshly malloc'ed and memset node with [code = -1]. *)
Definition new_node : huffman_node := HNode (-1) None None.

Definition upd {A : Type} (f : nat -> A) (k : nat) (v : A) : nat -> A :=
  fun x => if Nat.eqb x k then v else f x.

(** [for(i < numof_ranges) if(ranges[i].bit_length > max) max = ...] *)
Fixpoint max_bit_length_loop (rs : list huffman_range) (m : nat) : nat :=
  match rs with
  | [] => m
  | r :: rs' =>
      max_bit_length_loop rs' (if (m <? range_bits r)%nat then range_bits r else m)
  end.

(** [numof_codes_per_length[ranges[i].bit_length] +=
       ranges[i].end - ((i > 0) ? (int)ranges[i - 1].end : -1)];
    [prev] is [ranges[i-1].end], [-1] before the first range. *)
Fixpoint count_codes_loop (prev : Z) (rs : list huffman_range) (cnt : nat -> Z)
  : nat -> Z :=
  match rs with
  | [] => cnt
  | r :: rs' =>
      count_codes_loop (Z.of_nat (range_end r)) rs'
        (upd cnt (range_bits r)
           ((cnt (range_bits r) + (Z.of_nat (range_end r) - prev)) mod 2 ^ 32))
  end.

(** [for(; bits <= max_bit_length; ++bits) {
       code = (code + numof_codes_per_length[bits - 1]) << 1;
       if(numof_codes_per_length[bits]) next_code[bits] = code; }] *)
Fixpoint next_code_loop (k bits : nat) (code : Z) (cnt : nat -> Z) (nc : nat -> Z)
  : nat -> Z :=
  match k with
  | O => nc
  | S k' =>
      let code' := Z.shiftl (code + cnt (bits - 1)%nat) 1 mod 2 ^ 32 in
      next_code_loop k' (S bits) code' cnt
        (if cnt bits =? 0 then nc else upd nc bits code')
  end.

(** [ranges[active_range]] beyond the ranges handed in. *)
Definition no_range : huffman_range := mkRange 0 0.

(** The code-assignment loop.  [active] is the list of ranges from
    [ranges[active_range]] on; [++active_range] drops its head. *)
Fixpoint assign_codes_loop (k i : nat) (active : list huffman_range)
    (nc : nat -> Z) (tree : nat -> tree_node) : nat -> tree_node :=
  match k with
  | O => tree
  | S k' =>
      let active :=
        match active with
        | r :: rs' => if (range_end r <? i)%nat then rs' else active
        | [] => []
        end in
      let b := range_bits (hd no_range active) in
      if Nat.eqb b 0 then assign_codes_loop k' (S i) active nc tree
      else
        assign_codes_loop k' (S i) active
          (upd nc b ((nc b + 1) mod 2 ^ 32))
          (upd tree i (mkTN (nc b) b))
  end.

Definition last_end (rs : list huffman_range) : nat := range_end (last rs no_range).

(** The [tree] array of [build_huffman_tree] after its first three loops. *)
Definition code_table (rs : list huffman_range) : nat -> tree_node :=
  let max_bit_length := max_bit_length_loop rs 0 in
  let cnt := count_codes_loop (-1) rs (fun _ => 0) in
  let nc := next_code_loop max_bit_length 1 0 cnt (fun _ => 0) in
  assign_codes_loop (S (last_end rs)) 0 rs nc (fun _ => mkTN 0 0).

(** The bits tested while inserting a code: [code & (1 << (bits - 1))] for
    [bits = bit_length .. 1]; [true] descends to [rhs]. *)
Fixpoint code_path (bits : nat) (code : Z) : list bool :=
  match bits with
  | O => []
  | S b => negb (Z.land code (Z.shiftl 1 (Z.of_nat b)) =? 0) :: code_path b code
  end.

Definition symbol_path (rs : list huffman_range) (i : nat) : list bool :=
  let t := code_table rs i in code_path (tn_bit_length t) (tn_code t).

(** Descend along [path], creating missing children, then
    [assert(node->code == -1); node->code = i]. *)
Fixpoint insert_path (path : list bool) (sym : Z) (n : huffman_node)
  : res huffman_node :=
  match n with
  | HNode c l r =>
      match path with
      | [] => if c =? -1 then Ok (HNode sym l r) else Fault AssertFailed
      | true :: p =>
          let child := match r with Some x => x | None => new_node end in
          let* x := insert_path p sym child in Ok (HNode c l (Some x))
      | false :: p =>
          let child := match l with Some x => x | None => new_node end in
          let* x := insert_path p sym child in Ok (HNode c (Some x) r)
      end
  end.

(** [for(i = 0; i <= ranges[numof_ranges - 1].end; ++i)
       if(tree[i].bit_length) insert] *)
Fixpoint insert_loop (k i : nat) (tree : nat -> tree_node) (root : huffman_node)
  : res huffman_node :=
  match k with
  | O => Ok root
  | S k' =>
      if Nat.eqb (tn_bit_length (tree i)) 0 then insert_loop k' (S i) tree root
      else
        let* root' := insert_path (code_path (tn_bit_length (tree i)) (tn_code (tree i)))
                        (Z.of_nat i) root in
        insert_loop k' (S i) tree root'
  end.

(** [build_huffman_tree(root, numof_ranges, ranges)] on a memset root;
    [numof_ranges = 0] reads [ranges[-1]]. *)
Definition build_huffman_tree (rs : list huffman_range) : res huffman_node :=
  match rs with
  | [] => Fault TableIndex
  | _ => insert_loop (S (last_end rs)) 0 (code_table rs) (HNode (-1) None None)
  end.

Definition fixed_ranges : list huffman_range :=
  [mkRange 143 8; mkRange 255 9; mkRange 279 7; mkRange 287 8].

Definition build_fixed_huffman_tree : res huffman_node :=
  build_huffman_tree fixed_ranges.

(** ** The length/distance engine: [inflate_huffman_codes] *)

Definition MAX_DISTANCE : Z := 32768.

Definition extra_length_addend : list Z :=
  [11; 13; 15; 17; 19; 23; 27; 31; 35; 43; 51; 59; 67; 83; 99; 115; 131; 163;
   195; 227].

Definition extra_dist_addend : list Z :=
  [4; 6; 8; 12; 16; 24; 32; 48; 64; 96; 128; 192; 256; 384; 512; 768; 1024;
   1536; 2048; 3072; 4096; 6144; 8192; 12288; 16384; 24576].

(** Indexing one of the two local tables. *)
Definition table_get (t : list Z) (i : Z) : res Z :=
  if 0 <=? i then
    match nth_error t (Z.to_nat i) with
    | Some v => Ok v
    | None => Fault TableIndex
    end
  else Fault TableIndex.

(** [if(next_bit(stream)) node = node->rhs; else node = node->lhs;]
    followed by a dereference of [node]. *)
Definition step (n : huffman_node) (bit : Z) : res huffman_node :=
  match n with
  | HNode _ l r =>
      if bit =? 1 then match r with Some x => Ok x | None => Fault NullChild end
      else match l with Some x => Ok x | None => Fault NullChild end
  end.

(** The length of a back-reference from symbol [code] in [257, 285]. *)
Definition decode_length (code : Z) (w : world) : res (Z * world) :=
  if code <? 265 then Ok (code - 254, w)
  else if code <? 285 then
    let (extra_bits, w1) := read_bits_and_invert w (Z.to_nat ((code - 261) / 4)) in
    let* a := table_get extra_length_addend (code - 265) in
    Ok (extra_bits + a, w1)
  else Ok (258, w).

(** [node = distances_root; while(node->code == -1) { ...descend... }] *)
Fixpoint walk_to_leaf (n : huffman_node) (w : world) : res (Z * world) :=
  match n with
  | HNode c l r =>
      if negb (c =? -1) then Ok (c, w)
      else
        let (b, w1) := next_bit w in
        if b =? 1 then
          match r with Some x => walk_to_leaf x w1 | None => Fault NullChild end
        else
          match l with Some x => walk_to_leaf x w1 | None => Fault NullChild end
  end.

(** The distance symbol: [read_bits(stream, 5)] when [distances_root == NULL]
    (fixed blocks), a walk of the distance tree otherwise. *)
Definition read_distance_symbol (distances_root : option huffman_node) (w : world)
  : res (Z * world) :=
  match distances_root with
  | None => Ok (read_bits w 5)
  | Some root => walk_to_leaf root w
  end.

(** [if(dist > 3) { extra_dist = read_bits_and_invert(stream, (dist - 2) / 2);
       dist = extra_dist + extra_dist_addend[dist - 4]; }]
    The copy then starts at [ptr - dist - 1]. *)
Definition decode_distance (dist : Z) (w : world) : res (Z * world) :=
  if 3 <? dist then
    let (extra_dist, w1) := read_bits_and_invert w (Z.to_nat ((dist - 2) / 2)) in
    let* a := table_get extra_dist_addend (dist - 4) in
    Ok (extra_dist + a, w1)
  else Ok (dist, w).

(** [*(ptr++) = byte] into [unsigned char buf[MAX_DISTANCE]]; [window] holds
    [buf[0 .. ptr)]. *)
Definition put_byte (window : list Z) (b : Z) : res (list Z) :=
  if Z.of_nat (length window) <? MAX_DISTANCE then Ok (window ++ [b])
  else Fault BufferOverflow.

(** [while(length--) *(ptr++) = *(backptr++);] with [back] the index of
    [backptr] in [buf]. *)
Fixpoint copy_loop (len : nat) (back : Z) (window : list Z) : res (list Z) :=
  match len with
  | O => Ok window
  | S len' =>
      if back <? 0 then Fault BufferUnderflow
      else
        match nth_error window (Z.to_nat back) with
        | Some v =>
            let* window' := put_byte window v in copy_loop len' (back + 1) window'
        | None => Fault BufferUnderflow
        end
  end.

(** A back-reference with C's [dist] (the distance minus one). *)
Definition copy_backref (window : list Z) (dist length : Z) : res (list Z) :=
  copy_loop (Z.to_nat length) (Z.of_nat (List.length window) - dist - 1) window.

(** The [while(!stop_code)] loop.  [None]: the [feof] check returned
    [false]; [Some window]: the end-of-block symbol was decoded. *)
Fixpoint inflate_codes_loop (fuel : nat) (literals_root node : huffman_node)
    (distances_root : option huffman_node) (window : list Z) (w : world)
  : res (option (list Z) * world) :=
  match fuel with
  | O => Fault OutOfFuel
  | S f =>
      if w_eof w then Ok (None, w)
      else
        let (b, w1) := next_bit w in
        let* n := step node b in
        let c := node_code n in
        if c =? -1 then inflate_codes_loop f literals_root n distances_root window w1
        else if negb (c <? 286) then Fault AssertFailed
        else if c <? 256 then
          let* window' := put_byte window c in
          inflate_codes_loop f literals_root literals_root distances_root window' w1
        else if c =? 256 then Ok (Some window, w1)
        else
          let* '(length, w2) := decode_length c w1 in
          let* '(d, w3) := read_distance_symbol distances_root w2 in
          let* '(dist, w4) := decode_distance d w3 in
          let* window' := copy_backref window dist length in
          inflate_codes_loop f literals_root literals_root distances_root window' w4
  end.

Definition write_out (bytes : list Z) (w : world) : world :=
  mkWorld (w_src w) (w_eof w) (w_buf w) (w_mask w) (w_out w ++ bytes).

(** [inflate_huffman_codes]: a fresh block buffer [buf] per call, written
    to [fd] when the end-of-block symbol is reached. *)
Definition inflate_huffman_codes (fuel : nat) (literals_root : huffman_node)
    (distances_root : option huffman_node) (w : world) : res (bool * world) :=
  let* '(r, w1) := inflate_codes_loop fuel literals_root literals_root distances_root [] w in
  match r with
  | None => Ok (false, w1)
  | Some window => Ok (true, write_out window w1)
  end.

(** ** [read_dynamic_huffman_tree] *)

Definition code_length_offsets : list nat :=
  [16; 17; 18; 0; 8; 7; 9; 6; 10; 5; 11; 4; 12; 3; 13; 2; 14; 1; 15]%nat.

(** [for(i = 0; i < hclen + 4; ++i)
       code_lengths[code_length_offsets[i]] = read_bits_and_invert(stream, 3);] *)
Fixpoint read_code_lengths (offs : list nat) (code_lengths : list nat) (w : world)
  : list nat * world :=
  match offs with
  | [] => (code_lengths, w)
  | o :: offs' =>
      let (v, w1) := read_bits_and_invert w 3 in
      read_code_lengths offs' (firstn o code_lengths ++ [Z.to_nat v] ++ skipn (S o) code_lengths) w1
  end.

(** A read of [a[i]] for an array holding the entries [a]. *)
Definition heap_get (a : list nat) (i : nat) : res nat :=
  match nth_error a i with Some v => Ok v | None => Fault HeapOverread end.

(** The run-length loops of [read_dynamic_huffman_tree]:
    [for(i = lo; i < lo + k; ++i) {
       if((i > lo) && (a[i] != a[i - 1])) ++j;
       ranges[j].end = i - lo; ranges[j].bit_length = a[i]; }]
    [acc] is [ranges[j], ranges[j-1], ..., ranges[0]] (newest first). *)
Fixpoint ranges_loop (a : list nat) (lo i k : nat) (acc : list huffman_range)
  : res (list huffman_range) :=
  match k with
  | O => Ok acc
  | S k' =>
      let* ai := heap_get a i in
      let* bump := (if (lo <? i)%nat then
                      let* ap := heap_get a (i - 1) in Ok (negb (Nat.eqb ai ap))
                    else Ok false) in
      let r := mkRange (i - lo) ai in
      ranges_loop a lo (S i) k' (r :: (if bump then acc else tl acc))
  end.

(** The ranges handed to [build_huffman_tree]: the first [count] of them. *)
Definition first_ranges (acc : list huffman_range) (count : nat) : list huffman_range :=
  firstn count (rev acc).

(** Lines 202-212: [j + 1] ranges over the 19 code lengths. *)
Definition code_length_ranges (code_lengths : list nat) : res (list huffman_range) :=
  let* acc := ranges_loop code_lengths 0 0 19 [] in
  Ok (first_ranges acc (length acc)).

(** Lines 257-265: [i = 0 .. hlit + 257], then [build_huffman_tree(literals_root, j, ...)]. *)
Definition literal_ranges (alphabet : list nat) (hlit : nat) : res (list huffman_range) :=
  let* acc := ranges_loop alphabet 0 0 (hlit + 258) [] in
  Ok (first_ranges acc (length acc - 1)).

(** Lines 267-276: [i = hlit + 257 .. hdist + hlit + 258], then
    [build_huffman_tree(distances_root, j, ...)]. *)
Definition distance_ranges (alphabet : list nat) (hlit hdist : nat)
  : res (list huffman_range) :=
  let* acc := ranges_loop alphabet (hlit + 257) (hlit + 257) (hdist + 2) [] in
  Ok (first_ranges acc (length acc - 1)).

(** [while(repeat_length--) { alphabet[i] = (code == 16) ? alphabet[i - 1] : 0; ++i; }]
    in an array of [total] entries. *)
Fixpoint repeat_loop (n : nat) (code : Z) (total : nat) (alphabet : list nat)
  : res (list nat) :=
  match n with
  | O => Ok alphabet
  | S n' =>
      let i := length alphabet in
      let* v := (if code =? 16 then
                   (if (0 <? i)%nat then heap_get alphabet (i - 1) else Fault HeapOverread)
                 else Ok 0%nat) in
      if (i <? total)%nat then repeat_loop n' code total (alphabet ++ [v])
      else Fault HeapOverflow
  end.

(** [switch(code_lengths_node->code)] for the repeat codes. *)
Definition read_repeat_length (code : Z) (w : world) : res (nat * world) :=
  if code =? 16 then let (v, w1) := read_bits_and_invert w 2 in Ok (Z.to_nat (v + 3), w1)
  else if code =? 17 then let (v, w1) := read_bits_and_invert w 3 in Ok (Z.to_nat (v + 3), w1)
  else if code =? 18 then let (v, w1) := read_bits_and_invert w 7 in Ok (Z.to_nat (v + 11), w1)
  else Fault Uninitialised.

(** [while(i < (hlit + hdist + 258))]: decoding the literal/length and
    distance code lengths; [i] is [length alphabet]. *)
Fixpoint alphabet_loop (fuel total : nat) (root node : huffman_node)
    (alphabet : list nat) (w : world) : res (list nat * world) :=
  match fuel with
  | O => Fault OutOfFuel
  | S f =>
      if negb (length alphabet <? total)%nat then Ok (alphabet, w)
      else
        let (b, w1) := next_bit w in
        let* n := step node b in
        let c := node_code n in
        if c =? -1 then alphabet_loop f total root n alphabet w1
        else if 15 <? c then
          let* '(rl, w2) := read_repeat_length c w1 in
          let* alphabet' := repeat_loop rl c total alphabet in
          alphabet_loop f total root root alphabet' w2
        else alphabet_loop f total root root (alphabet ++ [Z.to_nat c]) w1
  end.

(** Lines 192-253: header, code-length tree and the combined length vector;
    returns [(hlit, hdist, alphabet)]. *)
Definition read_dynamic_alphabet (fuel : nat) (w : world)
  : res (nat * nat * list nat * world) :=
  let (hlit, w1) := read_bits_and_invert w 5 in
  let (hdist, w2) := read_bits_and_invert w1 5 in
  let (hclen, w3) := read_bits_and_invert w2 4 in
  let (code_lengths, w4) :=
    read_code_lengths (firstn (Z.to_nat hclen + 4) code_length_offsets)
      (repeat 0%nat 19) w3 in
  let* crs := code_length_ranges code_lengths in
  let* code_lengths_root := build_huffman_tree crs in
  let total := (Z.to_nat hlit + Z.to_nat hdist + 258)%nat in
  let* '(alphabet, w5) := alphabet_loop fuel total code_lengths_root code_lengths_root [] w4 in
  Ok (Z.to_nat hlit, Z.to_nat hdist, alphabet, w5).

Definition read_dynamic_huffman_tree (fuel : nat) (w : world)
  : res (huffman_node * huffman_node * world) :=
  let* '(hlit, hdist, alphabet, w1) := read_dynamic_alphabet fuel w in
  let* lrs := literal_ranges alphabet hlit in
  let* literals_root := build_huffman_tree lrs in
  let* drs := distance_ranges alphabet hlit hdist in
  let* distances_root := build_huffman_tree drs in
  Ok (literals_root, distances_root, w1).

(** ** [inflate] *)

(** The [do { ... } while(!last_block)] loop; the result of
    [inflate_huffman_codes] is not inspected. *)
Fixpoint inflate_loop (fuel : nat) (w : world) : res (bool * world) :=
  match fuel with
  | O => Fault OutOfFuel
  | S f =>
      let (last_block, w1) := next_bit w in
      let (block_format, w2) := read_bits_and_invert w1 2 in
      let continue_with (w3 : world) :=
        if last_block =? 0 then inflate_loop f w3 else Ok (true, w3) in
      if block_format =? 0 then Ok (false, w2)
      else if block_format =? 1 then
        let* literals_root := build_fixed_huffman_tree in
        let* '(_, w3) := inflate_huffman_codes fuel literals_root None w2 in
        continue_with w3
      else if block_format =? 2 then
        let* '(literals_root, distances_root, w3) := read_dynamic_huffman_tree fuel w2 in
        let* '(_, w4) := inflate_huffman_codes fuel literals_root (Some distances_root) w3 in
        continue_with w4
      else Ok (false, w2)
  end.

(** [inflate(compressed_input, fd)]: the first byte is fetched with
    [fread] (its result unchecked; [stream.buf] starts as 0 here), [mask = 1]. *)
Definition start_world (src : list Z) : world :=
  set_mask 1 (fread_buf (mkWorld src false 0 1 [])).

Definition inflate (fuel : nat) (src : list Z) : res (bool * world) :=
  inflate_loop fuel (start_world src).

(** ** Test inputs *)

(** Packs bits (in consumption order) into bytes, LSB-first; the last byte
    is padded with zeros. *)
Fixpoint pack_bits_n (n : nat) (bs : list Z) : list Z :=
  match n with
  | O => []
  | S n' => lsb_value (firstn 8 bs) :: pack_bits_n n' (skipn 8 bs)
  end.

Definition pack_bits (bs : list Z) : list Z :=
  pack_bits_n ((length bs + 7) / 8) bs.

(** ** Specification side: RFC 1951 notions the claims refer to *)

(** The distance bases the spec lists for distance symbols [4 .. 29]. *)
Definition claim_dist_base : list Z :=
  [5; 7; 9; 13; 17; 25; 33; 49; 65; 97; 129; 193; 257; 385; 513; 769; 1025;
   1537; 2049; 3073; 4097; 6145; 8193; 12289; 16385; 24577].

(** The length vector a list of ranges stands for: symbols
    [ranges[i-1].end + 1 .. ranges[i].end] have length [ranges[i].bit_length]. *)
Fixpoint lens_from (start : nat) (rs : list huffman_range) : list nat :=
  match rs with
  | [] => []
  | r :: rs' =>
      repeat (range_bits r) (S (range_end r) - start) ++ lens_from (S (range_end r)) rs'
  end.

(** Range ends strictly increase, the first one at least [start]. *)
Fixpoint ranges_wf (start : nat) (rs : list huffman_range) : Prop :=
  match rs with
  | [] => True
  | r :: rs' => (start <= range_end r)%nat /\ ranges_wf (S (range_end r)) rs'
  end.

Definition count_len (b : nat) (lens : list nat) : nat :=
  length (filter (Nat.eqb b) lens).

(** RFC 1951 3.2.2 step 1: [bl_count[b]], with [bl_count[0] = 0]. *)
Definition bl_count (lens : list nat) (b : nat) : Z :=
  if Nat.eqb b 0 then 0 else Z.of_nat (count_len b lens).

(** RFC 1951 3.2.2 step 2: [code = (code + bl_count[bits-1]) << 1]. *)
Fixpoint rfc_next_code (lens : list nat) (b : nat) : Z :=
  match b with
  | O => 0
  | S b' => (rfc_next_code lens b' + bl_count lens b') * 2
  end.

(** RFC 1951 3.2.2 step 3: the canonical code of symbol [i]. *)
Definition rfc_code (lens : list nat) (i : nat) : Z :=
  let b := nth i lens 0%nat in
  rfc_next_code lens b + Z.of_nat (count_len b (firstn i lens)).

(** The value of [code] in [build_huffman_tree] after the iteration for
    [bits], given [numof_codes_per_length] as [cnt]. *)
Fixpoint code_at_bits (cnt : nat -> Z) (bits : nat) : Z :=
  match bits with
  | O => 0
  | S b => Z.shiftl (code_at_bits cnt b + cnt b) 1 mod 2 ^ 32
  end.

(** The code-assignment loop read symbol by symbol over a length vector. *)
Fixpoint assign_lens (i : nat) (lens : list nat) (nc : nat -> Z) (tree : nat -> tree_node)
  : nat -> tree_node :=
  match lens with
  | [] => tree
  | b :: lens' =>
      if Nat.eqb b 0 then assign_lens (S i) lens' nc tree
      else assign_lens (S i) lens' (upd nc b ((nc b + 1) mod 2 ^ 32)) (upd tree i (mkTN (nc b) b))
  end.

(** ** Concrete streams *)

(** The root of the fixed literal/length tree. *)
Definition fixed_root : huffman_node :=
  match build_fixed_huffman_tree with Ok r => r | Fault _ => new_node end.


(** Two fixed blocks: the first emits the literal 'A' (65), the second is
    final and emits a back-reference of length 3 and distance 1 into it. *)
Definition two_block_stream : list Z :=
  pack_bits ([0; 1; 0] ++ [0; 1; 1; 1; 0; 0; 0; 1] ++ repeat 0 7 ++
             [1; 1; 0] ++ [0; 0; 0; 0; 0; 0; 1] ++ [0; 0; 0; 0; 0] ++ repeat 0 7).

(** The same symbols in one final fixed block. *)
Definition one_block_stream : list Z :=
  pack_bits ([1; 1; 0] ++ [0; 1; 1; 1; 0; 0; 0; 1] ++
             [0; 0; 0; 0; 0; 0; 1] ++ [0; 0; 0; 0; 0] ++ repeat 0 7).

(** A final stored block with [LEN = 1], [NLEN = 0xFFFE] and the byte 'A'. *)
Definition stored_block_stream : list Z := [1; 1; 0; 254; 255; 65].

(** A final dynamic block header: [HLIT = 0], [HDIST = 0], [HCLEN = 2];
    code-length code lengths 1 for symbols 8 and 7 (codes 1 and 0), then
    256 eights and two sevens: symbols 0..255 have length 8, the
    end-of-block symbol 256 and distance code 0 have length 7. *)
Definition dynamic_block_stream : list Z :=
  pack_bits ([1; 0; 1] ++ repeat 0 10 ++ [0; 1; 0; 0] ++ repeat 0 12 ++
             [1; 0; 0; 1; 0; 0] ++ repeat 1 256 ++ [0; 0]).

(** A final fixed block whose first symbol is a back-reference (length 3,
    distance 1) before any byte is emitted. *)
Definition backref_first_stream : list Z :=
  pack_bits ([1; 1; 0] ++ [0; 0; 0; 0; 0; 0; 1] ++ [0; 0; 0; 0; 0] ++ repeat 0 7).

(** ** [read_string] *)

Definition MAX_BUF : nat := 255.

(** [do { if(fread(buf_ptr, 1, 1, in) < 1) return false; } while( *(buf_ptr++));]
    [buffer] holds [buffer[0 .. buf_ptr)]; reading into [buffer[MAX_BUF]]
    writes past the local array.  [None]: [return false]; [Some s]: the bytes
    up to and including the NUL, copied into [*target]. *)
Fixpoint read_string_loop (buffer src : list Z) : res (option (list Z) * list Z) :=
  match src with
  | [] => Ok (None, [])
  | c :: rest =>
      if (MAX_BUF <=? length buffer)%nat then Fault BufferOverflow
      else if c =? 0 then Ok (Some (buffer ++ [c]), rest)
      else read_string_loop (buffer ++ [c]) rest
  end.

Definition read_string (src : list Z) : res (option (list Z) * list Z) :=
  read_string_loop [] src.

(** ** [main] *)

Definition FHCRC : Z := 2.
Definition FEXTRA : Z := 4.
Definition FNAME : Z := 8.
Definition FCOMMENT : Z := 16.

(** [fread(ptr, size, 1, in) < 1]: the read fails when fewer than [size]
    bytes are left, and always when [size] is 0 ([fread] returns 0 then). *)
Definition fread_item (size : nat) (src : list Z) : option (list Z * list Z) :=
  if (size =? 0)%nat then None
  else if (size <=? length src)%nat then Some (firstn size src, skipn size src)
  else None.

(** [unsigned short] read by [fread] on a little-endian host. *)
Definition little_endian16 (b : list Z) : Z := nth 0 b 0 + 256 * nth 1 b 0.

(** Sequencing up to a [goto done]: [Ok None] jumps to [done]. *)
Definition then_do {A B : Type} (m : res (option A)) (k : A -> res (option B))
  : res (option B) :=
  match m with
  | Ok (Some a) => k a
  | Ok None => Ok None
  | Fault f => Fault f
  end.

Notation "'let?' x ':=' m 'in' k" := (then_do m (fun x => k))
  (at level 200, x name, m at level 100, k at level 200).
Notation "'let?' ' p ':=' m 'in' k" :=
  (then_do m (fun x => match x with p => k end))
  (at level 200, p pattern, m at level 100, k at level 200).

(** [main] once [fopen] has succeeded, on the bytes [src] of the input file.
    [target_exists name] tells whether [open(name, O_CREAT | O_EXCL ...)]
    finds [name] already there; [open(NULL, ...)] (no [FNAME] field) fails.
    The result is the file [main] creates, with the bytes written to it, or
    [None]; every path through [done] ends in [exit(0)].  The CRC32 and ISIZE
    reads after [inflate] touch neither. *)
Definition main_model (fuel : nat) (target_exists : list Z -> bool) (src : list Z)
  : res (option (list Z * list Z)) :=
  let? '(header, s1) := Ok (fread_item 10 src) in
  if negb ((nth 0 header 0 =? 31) && (nth 1 header 0 =? 139)) then Ok None
  else if negb (nth 2 header 0 =? 8) then Ok None
  else
    let flags := nth 3 header 0 in
    let? s2 := (if Z.land flags FEXTRA =? 0 then Ok (Some s1)
                else
                  let? '(x, s) := Ok (fread_item 2 s1) in
                  let? '(_, s') := Ok (fread_item (Z.to_nat (little_endian16 x)) s) in
                  Ok (Some s')) in
    let? '(fname, s3) :=
      (if Z.land flags FNAME =? 0 then Ok (Some (None, s2))
       else
         let* '(r, s) := read_string s2 in
         match r with None => Ok None | Some name => Ok (Some (Some name, s)) end) in
    let? s4 := (if Z.land flags FCOMMENT =? 0 then Ok (Some s3)
                else
                  let* '(r, s) := read_string s3 in
                  match r with None => Ok None | Some _ => Ok (Some s) end) in
    let? s5 := (if Z.land flags FHCRC =? 0 then Ok (Some s4)
                else let? '(_, s) := Ok (fread_item 2 s4) in Ok (Some s)) in
    match fname with
    | None => Ok None
    | Some name =>
        let path := removelast name in
        if target_exists path then Ok None
        else
          let* '(_, w) := inflate fuel s5 in
          Ok (Some (path, w_out w))
    end.

(** ** Reading a decoding trie *)

(** The [code] of the node reached from [n] along [path] ([true]: [rhs]),
    if no child on the way is NULL. *)
Fixpoint lookup (n : huffman_node) (path : list bool) : option Z :=
  match path, n with
  | [], HNode c _ _ => Some c
  | b :: p, HNode _ l r =>
      match (if b then r else l) with Some x => lookup x p | None => None end
  end.

(** * Proofs *)

(** ** The bit reader *)

Lemma next_bit_bit (w : world) :
  fst (next_bit w) = 0 \/ fst (next_bit w) = 1.
Proof.
  unfold next_bit; cbv zeta.
  destruct (Z.shiftl (w_mask w) 1 mod 2 ^ 8 =? 0); simpl;
    destruct (Z.land (w_buf w) (w_mask w) =? 0); auto.
Qed.

Lemma next_bits_bits (n : nat) (w : world) :
  Forall (fun b => b = 0 \/ b = 1) (fst (next_bits n w)).
Proof.
  revert w; induction n as [|n IH]; intros w; simpl; [constructor|].
  pose proof (next_bit_bit w) as Hb.
  destruct (next_bit w) as [b w1] eqn:E; simpl in Hb.
  specialize (IH w1). destruct (next_bits n w1) as [bs w2]; simpl in *.
  constructor; auto.
Qed.

Lemma next_bits_length (n : nat) (w : world) : length (fst (next_bits n w)) = n.
Proof.
  revert w; induction n as [|n IH]; intros w; simpl; [reflexivity|].
  destruct (next_bit w) as [b w1]. specialize (IH w1).
  destruct (next_bits n w1) as [bs w2]; simpl in *. lia.
Qed.

Lemma lsb_value_range (bs : list Z) :
  Forall (fun b => b = 0 \/ b = 1) bs ->
  0 <= lsb_value bs < 2 ^ Z.of_nat (length bs).
Proof.
  induction 1 as [|b bs Hb _ IH]; [simpl; lia|].
  cbn [lsb_value]. change (length (b :: bs)) with (S (length bs)).
  rewrite Nat2Z.inj_succ, Z.pow_succ_r by lia. lia.
Qed.

Lemma lor_high_bit (v b i : Z) :
  0 <= i < 32 -> 0 <= v < 2 ^ i -> (b = 0 \/ b = 1) ->
  Z.lor v (Z.shiftl b i mod 2 ^ 32) = v + b * 2 ^ i.
Proof.
  intros Hi Hv [-> | ->].
  - rewrite Z.shiftl_0_l, Z.mod_0_l, Z.lor_0_r by lia. lia.
  - rewrite Z.shiftl_1_l.
    assert (Hlt : 2 ^ i < 2 ^ 32) by (apply Z.pow_lt_mono_r; lia).
    rewrite Z.mod_small by (split; [apply Z.pow_nonneg|]; lia).
    assert (Hland : Z.land v (2 ^ i) = 0).
    { apply Z.bits_inj'; intros n Hn.
      rewrite Z.land_spec, Z.bits_0, Z.pow2_bits_eqb by lia.
      destruct (Z.eqb_spec i n) as [<-|]; [|apply andb_false_r].
      rewrite <- (Z.mod_small v (2 ^ i)) by lia.
      rewrite Z.mod_pow2_bits_high by lia. reflexivity. }
    rewrite <- Z.lxor_lor, <- Z.add_nocarry_lxor by exact Hland. lia.
Qed.

Lemma read_bits_and_invert_loop_value (k i : nat) (v : Z) (w : world) :
  (i + k <= 32)%nat -> 0 <= v < 2 ^ Z.of_nat i ->
  read_bits_and_invert_loop i k v w =
  (v + 2 ^ Z.of_nat i * lsb_value (fst (next_bits k w)), snd (next_bits k w)).
Proof.
  revert i v w; induction k as [|k IH]; intros i v w Hik Hv.
  - cbn. f_equal; lia.
  - cbn [read_bits_and_invert_loop next_bits].
    pose proof (next_bit_bit w) as Hb.
    destruct (next_bit w) as [b w1] eqn:E; cbn [fst] in Hb.
    rewrite lor_high_bit by (auto; lia).
    rewrite IH by (rewrite ?Nat2Z.inj_succ, ?Z.pow_succ_r by lia;
                   destruct Hb; subst; lia).
    destruct (next_bits k w1) as [bs w2]. cbn [fst snd lsb_value].
    rewrite Nat2Z.inj_succ, Z.pow_succ_r by lia. f_equal. ring.
Qed.

Lemma lor_low_bit (v b : Z) :
  0 <= v -> (b = 0 \/ b = 1) -> Z.lor (2 * v) b = 2 * v + b.
Proof.
  intros Hv Hb.
  assert (Hland : Z.land (2 * v) b = 0).
  { destruct Hb as [-> | ->]; [apply Z.land_0_r|].
    change 1 with (Z.ones 1). rewrite Z.land_ones by lia.
    rewrite Z.mul_comm. apply Z.mod_mul. lia. }
  rewrite <- Z.lxor_lor, <- Z.add_nocarry_lxor by exact Hland. reflexivity.
Qed.

Lemma read_bits_loop_value (k j : nat) (v : Z) (w : world) :
  (j + k <= 32)%nat -> 0 <= v < 2 ^ Z.of_nat j ->
  read_bits_loop k v w = (msb_value_acc v (fst (next_bits k w)), snd (next_bits k w)).
Proof.
  revert j v w; induction k as [|k IH]; intros j v w Hjk Hv; [reflexivity|].
  cbn [read_bits_loop next_bits].
  pose proof (next_bit_bit w) as Hb.
  destruct (next_bit w) as [b w1] eqn:E; cbn [fst] in Hb.
  assert (H2v : Z.shiftl v 1 mod 2 ^ 32 = 2 * v).
  { rewrite Z.shiftl_mul_pow2 by lia.
    assert (2 ^ Z.of_nat j <= 2 ^ 31) by (apply Z.pow_le_mono_r; lia).
    rewrite Z.mod_small; lia. }
  rewrite H2v, lor_low_bit by (auto; lia).
  rewrite (IH (S j)) by (rewrite ?Nat2Z.inj_succ, ?Z.pow_succ_r by lia;
                         destruct Hb; subst; lia).
  destruct (next_bits k w1) as [bs w2]; reflexivity.
Qed.

Lemma land_pow2_bit (b k : Z) :
  0 <= k -> (if Z.land b (2 ^ k) =? 0 then 0 else 1) = Z.b2z (Z.testbit b k).
Proof.
  intros Hk. destruct (Z.testbit b k) eqn:Et.
  - destruct (Z.eqb_spec (Z.land b (2 ^ k)) 0) as [E|]; [|reflexivity].
    exfalso. assert (Hf := f_equal (fun x => Z.testbit x k) E). cbv beta in Hf.
    rewrite Z.land_spec, Z.pow2_bits_true, Et, Z.bits_0 in Hf by lia. discriminate.
  - replace (Z.land b (2 ^ k)) with 0; [reflexivity|].
    symmetry. apply Z.bits_inj'; intros n Hn.
    rewrite Z.land_spec, Z.bits_0, Z.pow2_bits_eqb by lia.
    destruct (Z.eqb_spec k n) as [<-|]; [rewrite Et; reflexivity|apply andb_false_r].
Qed.

Lemma next_bit_at (w : world) (k : Z) :
  0 <= k < 7 -> w_mask w = 2 ^ k ->
  next_bit w = (Z.b2z (Z.testbit (w_buf w) k), set_mask (2 ^ (k + 1)) w).
Proof.
  intros Hk Hm. unfold next_bit. rewrite Hm, land_pow2_bit by lia.
  rewrite Z.shiftl_mul_pow2, Z.mod_small by
    (try split; rewrite <- ?Z.pow_add_r by lia;
     try apply Z.pow_lt_mono_r; try apply Z.pow_nonneg; lia).
  rewrite <- Z.pow_add_r by lia.
  assert (Hne : 2 ^ (k + 1) <> 0) by (apply Z.pow_nonzero; lia).
  apply Z.eqb_neq in Hne. cbv zeta. rewrite Hne.
  replace (set_mask (2 ^ (k + 1)) w) with (set_mask (2 ^ k * 2 ^ 1) w)
    by (rewrite <- Z.pow_add_r by lia; reflexivity).
  reflexivity.
Qed.

Lemma next_bit_last (w : world) :
  w_mask w = 128 ->
  next_bit w = (Z.b2z (Z.testbit (w_buf w) 7), fread_buf (set_mask 1 w)).
Proof.
  intros Hm. unfold next_bit. rewrite Hm. cbv zeta.
  change (Z.shiftl 128 1 mod 2 ^ 8) with 0. rewrite Z.eqb_refl.
  rewrite <- (land_pow2_bit (w_buf w) 7) by lia.
  destruct w; reflexivity.
Qed.

(** ** C5: [read_bits_and_invert] *)

(** Claim C5: for [n <= 16], [read_bits_and_invert(stream, n)] returns
    [Σ b_i 2^i] over the bits [b_0 .. b_{n-1}] in the order [next_bit]
    delivers them (the first bit read is bit 0 of the result); and [next_bit]
    delivers the bits of each source byte least significant first, the bytes
    in source order (from a byte boundary, eight reads return bits 0..7 of
    [buf] and then continue with the next source byte). *)
Theorem read_bits_and_invert_lsb_first (n : nat) (w : world) :
  (n <= 16)%nat ->
  read_bits_and_invert w n = (lsb_value (fst (next_bits n w)), snd (next_bits n w)) /\
  (w_mask w = 1 ->
   fst (next_bits 8 w) = map (fun k => Z.b2z (Z.testbit (w_buf w) k)) [0; 1; 2; 3; 4; 5; 6; 7] /\
   snd (next_bits 8 w) = fread_buf w).
Proof.
  intros Hn. split.
  - unfold read_bits_and_invert.
    rewrite read_bits_and_invert_loop_value by (simpl; lia).
    f_equal. cbn [Z.of_nat]. rewrite Z.pow_0_r. ring.
  - intros Hm. cbn [next_bits].
    rewrite (next_bit_at w 0) by (auto; lia). cbv beta iota.
    rewrite (next_bit_at _ 1) by (simpl; auto; lia). cbv beta iota.
    rewrite (next_bit_at _ 2) by (simpl; auto; lia). cbv beta iota.
    rewrite (next_bit_at _ 3) by (simpl; auto; lia). cbv beta iota.
    rewrite (next_bit_at _ 4) by (simpl; auto; lia). cbv beta iota.
    rewrite (next_bit_at _ 5) by (simpl; auto; lia). cbv beta iota.
    rewrite (next_bit_at _ 6) by (simpl; auto; lia). cbv beta iota.
    rewrite next_bit_last by reflexivity. cbv beta iota.
    split; [reflexivity|].
    destruct w; simpl in *; subst; reflexivity.
Qed.

Lemma read_bits_and_invert_lsb_first_witness :
  (12 <= 16)%nat /\
  read_bits_and_invert (mkWorld [171] false 205 1 []) 12
  = (lsb_value (fst (next_bits 12 (mkWorld [171] false 205 1 []))),
     snd (next_bits 12 (mkWorld [171] false 205 1 []))).
Proof.
  split; [lia|].
  apply (proj1 (read_bits_and_invert_lsb_first 12 (mkWorld [171] false 205 1 []) ltac:(lia))).
Defined.

(** ** C8: the fixed-block distance symbol *)

(** Claim C8: in a fixed block ([distances_root == NULL]) the distance symbol
    is [read_bits(stream, 5)], the five bits assembled most significant
    first: the first bit read is bit 4 of the symbol. *)
Theorem fixed_distance_symbol_msb_first (w : world) :
  exists b0 b1 b2 b3 b4,
    fst (next_bits 5 w) = [b0; b1; b2; b3; b4] /\
    read_distance_symbol None w
    = Ok (16 * b0 + 8 * b1 + 4 * b2 + 2 * b3 + b4, snd (next_bits 5 w)).
Proof.
  simpl read_distance_symbol. unfold read_bits.
  rewrite (read_bits_loop_value 5 0) by (simpl; lia).
  pose proof (next_bits_length 5 w) as Hl.
  destruct (fst (next_bits 5 w)) as [|b0 [|b1 [|b2 [|b3 [|b4 [|]]]]]] eqn:E;
    simpl in Hl; try discriminate.
  exists b0, b1, b2, b3, b4. split; [reflexivity|].
  unfold msb_value_acc. f_equal. f_equal. ring.
Qed.

(** ** The back-reference copy *)

Lemma copy_loop_spec (len : nat) (back : Z) (window : list Z) :
  0 <= back < Z.of_nat (length window) ->
  Z.of_nat (length window + len) <= MAX_DISTANCE ->
  exists ext, copy_loop len back window = Ok (window ++ ext) /\
    length ext = len /\
    forall i, (i < len)%nat ->
      nth_error (window ++ ext) (length window + i)
      = nth_error (window ++ ext) (Z.to_nat back + i).
Proof.
  revert back window; induction len as [|len IH]; intros back window Hb Hmax.
  - exists []. rewrite app_nil_r. split; [reflexivity|]. split; [reflexivity|].
    intros i Hi; lia.
  - cbn [copy_loop].
    destruct (Z.ltb_spec back 0) as [|_]; [lia|].
    destruct (nth_error window (Z.to_nat back)) as [v|] eqn:Ev;
      [|apply nth_error_None in Ev; lia].
    unfold put_byte.
    destruct (Z.ltb_spec (Z.of_nat (length window)) MAX_DISTANCE) as [_|]; [|lia].
    cbn [res_bind].
    destruct (IH (back + 1) (window ++ [v])) as [ext [Hrun [Hlen Hnth]]];
      [rewrite length_app; simpl; lia | rewrite length_app; simpl; lia |].
    exists (v :: ext). rewrite <- app_assoc in Hrun. simpl in Hrun.
    split; [exact Hrun|]. split; [simpl; lia|].
    intros [|i] Hi.
    + rewrite Nat.add_0_r, nth_error_app2, Nat.sub_diag by lia. simpl.
      rewrite Nat.add_0_r, nth_error_app1 by lia. symmetry; exact Ev.
    + specialize (Hnth i ltac:(lia)).
      rewrite <- app_assoc in Hnth. simpl in Hnth.
      rewrite length_app in Hnth. simpl in Hnth.
      replace (length window + S i)%nat with (length window + 1 + i)%nat by lia.
      replace (Z.to_nat back + S i)%nat with (Z.to_nat (back + 1) + i)%nat by lia.
      exact Hnth.
Qed.

Lemma copy_loop_run (len : nat) (window : list Z) (v : Z) :
  Z.of_nat (length window + S len) <= MAX_DISTANCE ->
  copy_loop len (Z.of_nat (length window)) (window ++ [v])
  = Ok (window ++ v :: repeat v len).
Proof.
  revert window; induction len as [|len IH]; intros window Hmax; [reflexivity|].
  cbn [copy_loop].
  destruct (Z.ltb_spec (Z.of_nat (length window)) 0) as [|_]; [lia|].
  rewrite Nat2Z.id, nth_error_app2, Nat.sub_diag by lia. simpl nth_error.
  unfold put_byte. rewrite length_app. simpl length.
  destruct (Z.ltb_spec (Z.of_nat (length window + 1)) MAX_DISTANCE) as [_|]; [|lia].
  cbn [res_bind].
  replace (Z.of_nat (length window) + 1) with (Z.of_nat (length (window ++ [v])))
    by (rewrite length_app; simpl; lia).
  rewrite IH by (rewrite length_app; simpl; lia).
  rewrite <- app_assoc. reflexivity.
Qed.

(** Claim C10: a back-reference copies byte by byte in increasing position
    order, each read seeing the bytes already written, so
    [out[p+i] = out[p-d+i]] for [i < L] with [p] the bytes in the buffer and
    [d = dist + 1] the distance, overlapping copies included; with [d = 1]
    the copy appends [L] repetitions of the preceding byte.  (The source
    must lie in the block buffer and the result fit it.) *)
Theorem copy_backref_bytewise (window : list Z) (dist len : Z) :
  0 <= dist -> dist + 1 <= Z.of_nat (List.length window) -> 0 <= len ->
  Z.of_nat (List.length window) + len <= MAX_DISTANCE ->
  exists ext, copy_backref window dist len = Ok (window ++ ext) /\
    List.length ext = Z.to_nat len /\
    (forall i, (i < Z.to_nat len)%nat ->
       nth_error (window ++ ext) (List.length window + i)
       = nth_error (window ++ ext) (List.length window - Z.to_nat (dist + 1) + i)) /\
    (dist = 0 -> ext = repeat (last window 0) (Z.to_nat len)).
Proof.
  intros Hd Hp Hl Hmax. unfold copy_backref.
  destruct (copy_loop_spec (Z.to_nat len) (Z.of_nat (List.length window) - dist - 1) window)
    as [ext [Hrun [Hlen Hnth]]]; [lia | lia |].
  exists ext. split; [exact Hrun|]. split; [exact Hlen|]. split.
  - intros i Hi. rewrite Hnth by exact Hi. f_equal. lia.
  - intros ->. destruct window as [|x window'] using rev_ind; [simpl in Hp; lia|].
    rewrite last_last. clear IHwindow'.
    destruct (Z.to_nat len) as [|n] eqn:El.
    + destruct ext; [reflexivity|simpl in Hlen; lia].
    +       rewrite length_app in Hrun, Hmax, Hp; simpl List.length in Hrun, Hmax, Hp.
      replace (Z.of_nat (List.length window' + 1) - 0 - 1)
        with (Z.of_nat (List.length window')) in Hrun by lia.
      rewrite copy_loop_run in Hrun by lia.
      injection Hrun as Hrun. rewrite <- app_assoc in Hrun.
      apply app_inv_head in Hrun. simpl in Hrun. injection Hrun as Hrun.
      symmetry; exact Hrun.
Qed.

Lemma copy_backref_bytewise_witness :
  (0 <= 1 /\ 1 + 1 <= Z.of_nat (List.length [7; 8; 9]) /\ 0 <= 5 /\
   Z.of_nat (List.length [7; 8; 9]) + 5 <= MAX_DISTANCE) /\
  exists ext, copy_backref [7; 8; 9] 1 5 = Ok ([7; 8; 9] ++ ext) /\
    List.length ext = Z.to_nat 5.
Proof.
  split; [vm_compute; repeat split; discriminate|].
  destruct (copy_backref_bytewise [7; 8; 9] 1 5) as [ext [H1 [H2 _]]];
    [lia | simpl; lia | lia | unfold MAX_DISTANCE; simpl; lia |].
  exists ext. split; assumption.
Defined.

(** ** C9: distances *)

Lemma extra_dist_addend_base (i : nat) :
  (i < 26)%nat -> nth_error extra_dist_addend i = Some (nth i claim_dist_base 0 - 1).
Proof.
  intros Hi. do 26 (destruct i as [|i]; [reflexivity|]). lia.
Qed.

Lemma claim_dist_base_pos (i : nat) : (i < 26)%nat -> 5 <= nth i claim_dist_base 0.
Proof.
  intros Hi. do 26 (destruct i as [|i]; [simpl; lia|]). lia.
Qed.

Lemma read_bits_and_invert_value (n : nat) (w : world) :
  (n <= 32)%nat ->
  read_bits_and_invert w n = (lsb_value (fst (next_bits n w)), snd (next_bits n w)).
Proof.
  intros Hn. unfold read_bits_and_invert.
  rewrite read_bits_and_invert_loop_value by (simpl; lia).
  f_equal. cbn [Z.of_nat]. rewrite Z.pow_0_r. ring.
Qed.

(** Claim C9: for a distance symbol [d] in [0, 29], [decode_distance] yields
    C's [dist] with [dist + 1 = d + 1] for [d <= 3] and
    [dist + 1 = base_d + v] for [d >= 4], [v] the value of [(d - 2) / 2]
    extra bits read LSB-first and [base_d] the spec's table; and the copy
    [backptr = ptr - dist - 1] starts exactly [dist + 1] bytes before the
    current output position. *)
Theorem backref_distance_rfc (d : Z) (w : world) (window : list Z) (len : Z) :
  0 <= d <= 29 ->
  let k := if d <=? 3 then 0%nat else Z.to_nat ((d - 2) / 2) in
  let distance :=
    if d <=? 3 then d + 1
    else nth (Z.to_nat (d - 4)) claim_dist_base 0 + lsb_value (fst (next_bits k w)) in
  exists dist,
    decode_distance d w = Ok (dist, snd (next_bits k w)) /\ dist + 1 = distance /\
    (distance <= Z.of_nat (List.length window) -> 1 <= len ->
     Z.of_nat (List.length window) + len <= MAX_DISTANCE ->
     exists out, copy_backref window dist len = Ok out /\
       nth_error out (List.length window)
       = nth_error window (List.length window - Z.to_nat distance)).
Proof.
  intros Hd k distance.
  assert (Hdist : exists dist, decode_distance d w = Ok (dist, snd (next_bits k w)) /\
                               dist + 1 = distance /\ 0 <= dist).
  { unfold decode_distance, distance, k.
    destruct (Z.leb_spec d 3) as [Hle|Hgt].
    - destruct (Z.ltb_spec 3 d) as [|_]; [lia|].
      exists d. simpl. repeat split; lia.
    - destruct (Z.ltb_spec 3 d) as [_|]; [|lia].
      rewrite read_bits_and_invert_value
        by (apply Nat2Z.inj_le; rewrite Z2Nat.id; [apply Z.div_le_upper_bound|apply Z.div_pos]; lia).
      unfold table_get. destruct (Z.leb_spec 0 (d - 4)) as [_|]; [|lia].
      rewrite extra_dist_addend_base by lia. cbn [res_bind].
      pose proof (claim_dist_base_pos (Z.to_nat (d - 4)) ltac:(lia)).
      pose proof (lsb_value_range _ (next_bits_bits (Z.to_nat ((d - 2) / 2)) w)).
      eexists. split; [reflexivity|]. split; lia. }
  destruct Hdist as [dist [Hrun [Heq Hpos]]].
  exists dist. split; [exact Hrun|]. split; [exact Heq|].
  intros Hp Hl Hmax.
  destruct (copy_backref_bytewise window dist len) as [ext [Hc [_ [Hnth _]]]]; try lia.
  exists (window ++ ext). split; [exact Hc|].
  specialize (Hnth 0%nat ltac:(lia)).
  rewrite !Nat.add_0_r in Hnth. rewrite Hnth, nth_error_app1 by lia.
  f_equal. lia.
Qed.

Lemma backref_distance_rfc_witness :
  0 <= 6 <= 29 /\
  exists dist, decode_distance 6 (mkWorld [] false 6 1 []) = Ok (dist, snd (next_bits 2 (mkWorld [] false 6 1 []))) /\
    dist + 1 = 9 + 2.
Proof.
  split; [lia|].
  destruct (backref_distance_rfc 6 (mkWorld [] false 6 1 []) [] 1 ltac:(lia))
    as [dist [H1 [H2 _]]].
  exists dist. split; [exact H1|]. rewrite H2. reflexivity.
Defined.

(** ** C4: no validation of back-references *)

Lemma read_bits_and_invert_range (n : nat) (w : world) :
  (n <= 32)%nat -> 0 <= fst (read_bits_and_invert w n) < 2 ^ Z.of_nat n.
Proof.
  intros Hn. rewrite read_bits_and_invert_value by exact Hn. simpl fst.
  pose proof (lsb_value_range _ (next_bits_bits n w)) as H.
  rewrite next_bits_length in H. exact H.
Qed.

Lemma extra_length_addend_range (c : Z) :
  265 <= c < 285 ->
  exists a, table_get extra_length_addend (c - 265) = Ok a /\
    11 <= a /\ a + 2 ^ Z.of_nat (Z.to_nat ((c - 261) / 4)) <= 259.
Proof.
  intros Hc.
  replace c with (265 + Z.of_nat (Z.to_nat (c - 265))) by lia.
  assert (Hi : (Z.to_nat (c - 265) < 20)%nat) by lia.
  generalize (Z.to_nat (c - 265)) Hi. clear Hc Hi. intros i Hi.
  do 20 (destruct i as [|i]; [eexists; split; [reflexivity|]; vm_compute; split; discriminate|]).
  lia.
Qed.

(** Claim C4, as the code has it: the decoder validates no back-reference.
    A length symbol in [257, 285] always yields a length in [3, 258] and a
    distance is always at least 1 by construction ([dist + 1] with [dist]
    unsigned), but a distance larger than the bytes already in the current
    block's buffer is not rejected: the copy reads before the start of the
    buffer (undefined behaviour in C) instead of failing. *)
Theorem backref_not_validated :
  (forall c w, 257 <= c <= 285 ->
     exists len w', decode_length c w = Ok (len, w') /\ 3 <= len <= 258) /\
  (forall window dist len, 0 <= dist -> 1 <= len ->
     Z.of_nat (List.length window) < dist + 1 ->
     copy_backref window dist len = Fault BufferUnderflow).
Proof.
  split.
  - intros c w Hc. unfold decode_length.
    destruct (Z.ltb_spec c 265) as [Hlt|Hge].
    + exists (c - 254), w. split; [reflexivity|lia].
    + destruct (Z.ltb_spec c 285) as [Hlt'|Hge'].
      * destruct (extra_length_addend_range c ltac:(lia)) as [a [Ha [Ha1 Ha2]]].
        assert (Hk : (Z.to_nat ((c - 261) / 4) <= 32)%nat).
        { apply Nat2Z.inj_le. rewrite Z2Nat.id by (apply Z.div_pos; lia).
          apply Z.div_le_upper_bound; lia. }
        pose proof (read_bits_and_invert_range _ w Hk) as Hr.
        destruct (read_bits_and_invert w (Z.to_nat ((c - 261) / 4))) as [e w1].
        simpl fst in Hr. rewrite Ha. cbn [res_bind].
        exists (e + a), w1. split; [reflexivity|lia].
      * exists 258, w. split; [reflexivity|lia].
  - intros window dist len Hd Hl Hp. unfold copy_backref.
    destruct (Z.to_nat len) as [|n] eqn:E; [lia|].
    cbn [copy_loop].
    destruct (Z.ltb_spec (Z.of_nat (List.length window) - dist - 1) 0); [reflexivity|lia].
Qed.

Lemma backref_not_validated_witness :
  (257 <= 270 <= 285 /\
   exists len w', decode_length 270 (mkWorld [] false 3 1 []) = Ok (len, w') /\ 3 <= len <= 258) /\
  (0 <= 4 /\ 1 <= 3 /\ Z.of_nat (List.length [1; 2]) < 4 + 1 /\
   copy_backref [1; 2] 4 3 = Fault BufferUnderflow).
Proof.
  split.
  - split; [lia|]. apply (proj1 backref_not_validated). lia.
  - split; [lia|]. split; [lia|]. split; [simpl; lia|].
    apply (proj2 backref_not_validated); simpl; lia.
Defined.

(** Claim C4 as stated (a distance beyond the bytes emitted makes [inflate]
    fail cleanly, emitting nothing) fails on [backref_first_stream]: the
    code has no check and reads before its block buffer. *)
Lemma backref_validation_counterexample :
  inflate 100 backref_first_stream = Fault BufferUnderflow /\
  ~ (exists w, inflate 100 backref_first_stream = Ok (false, w) /\ w_out w = []).
Proof.
  split; [vm_compute; reflexivity|].
  intros [w [H _]]. vm_compute in H. discriminate.
Qed.

(** ** C2: stored blocks *)

Lemma next_bit_out (w : world) : w_out (snd (next_bit w)) = w_out w.
Proof.
  unfold next_bit, fread_buf. cbv zeta.
  destruct (Z.shiftl (w_mask w) 1 mod 2 ^ 8 =? 0); simpl; [|reflexivity].
  destruct (w_src w); reflexivity.
Qed.

Lemma read_bits_and_invert_loop_out (i k : nat) (v : Z) (w : world) :
  w_out (snd (read_bits_and_invert_loop i k v w)) = w_out w.
Proof.
  revert i v w; induction k as [|k IH]; intros i v w; [reflexivity|].
  cbn [read_bits_and_invert_loop].
  pose proof (next_bit_out w) as Ho.
  destruct (next_bit w) as [b w1]. simpl in Ho. rewrite IH. exact Ho.
Qed.

(** Claim C2, as the code has it: stored blocks are not supported.  When the
    block header read by [inflate] has [BTYPE = 0], [inflate] returns
    [false] at once: it reads no [LEN]/[NLEN] (the stream is left right after
    the three header bits) and writes nothing to the output. *)
Theorem stored_block_rejected (fuel : nat) (w : world) :
  fst (read_bits_and_invert (snd (next_bit w)) 2) = 0 ->
  inflate_loop (S fuel) w = Ok (false, snd (read_bits_and_invert (snd (next_bit w)) 2)) /\
  w_out (snd (read_bits_and_invert (snd (next_bit w)) 2)) = w_out w.
Proof.
  intros H0. split.
  - cbn [inflate_loop].
    destruct (next_bit w) as [last_block w1]. cbn [fst snd] in H0 |- *.
    destruct (read_bits_and_invert w1 2) as [bf w2]. cbn [fst snd] in H0 |- *.
    subst bf. reflexivity.
  - unfold read_bits_and_invert. rewrite read_bits_and_invert_loop_out.
    apply next_bit_out.
Qed.

Lemma stored_block_rejected_witness :
  fst (read_bits_and_invert (snd (next_bit (start_world stored_block_stream))) 2) = 0 /\
  inflate_loop 10 (start_world stored_block_stream)
  = Ok (false, snd (read_bits_and_invert (snd (next_bit (start_world stored_block_stream))) 2)).
Proof.
  split; [vm_compute; reflexivity|].
  apply (proj1 (stored_block_rejected 9 (start_world stored_block_stream)
                  ltac:(vm_compute; reflexivity))).
Defined.

(** Claim C2 as stated (a stored block with [NLEN = ~LEN] has its [LEN]
    bytes copied to the output) fails on [stored_block_stream]: [inflate]
    returns [false] and writes nothing instead of the byte 'A'. *)
Lemma stored_block_counterexample :
  (exists w, inflate 100 stored_block_stream = Ok (false, w) /\ w_out w = []) /\
  ~ (exists b w, inflate 100 stored_block_stream = Ok (b, w) /\ w_out w = [65]).
Proof.
  split.
  - eexists. split; [vm_compute; reflexivity|reflexivity].
  - intros [b [w [H Ho]]]. vm_compute in H. injection H as _ <-.
    vm_compute in Ho. discriminate.
Qed.

(** ** C1: the output window and block boundaries *)

(** Claim C1 (code defect): the block buffer is local to
    [inflate_huffman_codes], so a back-reference into the previous block
    reads before the new, empty buffer.  On [two_block_stream] ('A' in a
    first block, a length-3 distance-1 back-reference in the second) the
    run faults with [BufferUnderflow], while the same symbols in one block
    decode to "AAAA", the original sequence. *)
Theorem cross_block_backref_faults :
  inflate 100 two_block_stream = Fault BufferUnderflow /\
  exists w, inflate 100 one_block_stream = Ok (true, w) /\ w_out w = [65; 65; 65; 65].
Proof.
  split; [vm_compute; reflexivity|].
  eexists. split; [vm_compute; reflexivity|reflexivity].
Qed.

(** ** C3: end of input inside a block *)

(** Claim C3 (code defect): [inflate] ignores the result of
    [inflate_huffman_codes].  On the one-byte input [0x03] (a final fixed
    block header followed by five bits of a symbol, then end of file) the
    block loop sees [feof] and returns [false], yet [inflate] returns [true]
    with nothing written. *)
Theorem truncated_final_block_succeeds :
  (exists root r w1,
     build_fixed_huffman_tree = Ok root /\
     inflate_huffman_codes 100 root None
       (snd (read_bits_and_invert (snd (next_bit (start_world [3]))) 2)) = Ok (r, w1) /\
     r = false /\ w_eof w1 = true) /\
  (exists w, inflate 100 [3] = Ok (true, w) /\ w_eof w = true /\ w_out w = []).
Proof.
  split.
  - do 3 eexists. split; [vm_compute; reflexivity|].
    split; [vm_compute; reflexivity|]. split; reflexivity.
  - eexists. split; [vm_compute; reflexivity|]. split; reflexivity.
Qed.

(** ** C7: splitting the dynamic length vector *)

(** Claim C7 (code defect): on [dynamic_block_stream] ([HLIT = 0],
    [HDIST = 0]) the code-length decoding yields the 258 entries
    [8 x 256, 7, 7].  The literal/length tree must be built from the first
    257 of them, but [literal_ranges] (the loop over [i <= hlit + 257]
    followed by [build_huffman_tree(literals_root, j, ...)]) hands over the
    single range [0..255]: the end-of-block symbol 256 is left out.  The
    distance loop runs to [hdist + hlit + 258] and reads past the
    [alphabet] array. *)
Theorem dynamic_literal_tree_drops_eob :
  let w := snd (read_bits_and_invert (snd (next_bit (start_world dynamic_block_stream))) 2) in
  exists alphabet w1,
    read_dynamic_alphabet 1000 w = Ok (0%nat, 0%nat, alphabet, w1) /\
    alphabet = repeat 8%nat 256 ++ [7%nat; 7%nat] /\
    literal_ranges alphabet 0 = Ok [mkRange 255 8] /\
    lens_from 0 [mkRange 255 8] = repeat 8%nat 256 /\
    firstn 257 alphabet <> repeat 8%nat 256 /\
    distance_ranges alphabet 0 0 = Fault HeapOverread.
Proof.
  intros w. do 2 eexists.
  split; [vm_compute; reflexivity|].
  split; [reflexivity|].
  split; [vm_compute; reflexivity|].
  split; [vm_compute; reflexivity|].
  split; [vm_compute; discriminate|].
  vm_compute; reflexivity.
Qed.

(** ** C6: canonical codes *)

Lemma last_end_ge (start : nat) (rs : list huffman_range) :
  rs <> [] -> ranges_wf start rs -> (start <= last_end rs)%nat.
Proof.
  revert start; induction rs as [|r rs IH]; intros start Hne Hwf; [congruence|].
  destruct Hwf as [Hle Hwf]. destruct rs as [|r2 rs2].
  - unfold last_end; simpl. exact Hle.
  - change (last_end (r :: r2 :: rs2)) with (last_end (r2 :: rs2)).
    specialize (IH (S (range_end r)) ltac:(discriminate) Hwf). lia.
Qed.

Lemma lens_from_length (start : nat) (rs : list huffman_range) :
  rs <> [] -> ranges_wf start rs ->
  length (lens_from start rs) = (S (last_end rs) - start)%nat.
Proof.
  revert start; induction rs as [|r rs IH]; intros start Hne Hwf; [congruence|].
  destruct Hwf as [Hle Hwf]. cbn [lens_from]. rewrite length_app, repeat_length.
  destruct rs as [|r2 rs2].
  - simpl. unfold last_end. simpl. lia.
  - rewrite IH by (auto; discriminate).
    change (last_end (r :: r2 :: rs2)) with (last_end (r2 :: rs2)).
    pose proof (last_end_ge (S (range_end r)) (r2 :: rs2) ltac:(discriminate) Hwf).
    lia.
Qed.

Lemma count_len_app (b : nat) (l1 l2 : list nat) :
  count_len b (l1 ++ l2) = (count_len b l1 + count_len b l2)%nat.
Proof. unfold count_len. rewrite filter_app, length_app. reflexivity. Qed.

Lemma count_len_repeat (b x n : nat) :
  count_len b (repeat x n) = if Nat.eqb b x then n else 0%nat.
Proof.
  unfold count_len. induction n as [|n IH]; simpl; [destruct (Nat.eqb b x); reflexivity|].
  destruct (Nat.eqb b x); simpl; lia.
Qed.

Lemma count_len_le (b : nat) (l : list nat) : (count_len b l <= length l)%nat.
Proof. unfold count_len. apply filter_length_le. Qed.

Lemma count_codes_loop_mod (rs : list huffman_range) (start : nat) (cnt : nat -> Z) (b : nat) :
  ranges_wf start rs ->
  count_codes_loop (Z.of_nat start - 1) rs cnt b mod 2 ^ 32
  = (cnt b + Z.of_nat (count_len b (lens_from start rs))) mod 2 ^ 32.
Proof.
  revert start cnt; induction rs as [|r rs IH]; intros start cnt Hwf.
  - simpl. unfold count_len. simpl. f_equal. lia.
  - destruct Hwf as [Hle Hwf]. cbn [count_codes_loop lens_from].
    replace (Z.of_nat (range_end r)) with (Z.of_nat (S (range_end r)) - 1) at 1 by lia.
    rewrite IH by exact Hwf.
    rewrite count_len_app, count_len_repeat, Nat2Z.inj_add.
    unfold upd. destruct (Nat.eqb_spec b (range_bits r)) as [->|Hne].
    + rewrite Z.add_mod_idemp_l by lia. f_equal; lia.
    + f_equal; lia.
Qed.

Lemma next_code_loop_spec (k bits : nat) (cnt nc : nat -> Z) (b : nat) :
  (1 <= bits)%nat ->
  next_code_loop k bits (code_at_bits cnt (bits - 1)) cnt nc b
  = if ((bits <=? b) && (b <? bits + k))%nat && negb (cnt b =? 0)
    then code_at_bits cnt b else nc b.
Proof.
  revert bits nc; induction k as [|k IH]; intros bits nc Hb.
  - cbn [next_code_loop].
    destruct (Nat.leb_spec bits b), (Nat.ltb_spec b (bits + 0)); try lia; reflexivity.
  - cbn [next_code_loop].
    replace (Z.shiftl (code_at_bits cnt (bits - 1) + cnt (bits - 1)%nat) 1 mod 2 ^ 32)
      with (code_at_bits cnt (S bits - 1)).
    2:{ replace (S bits - 1)%nat with (S (bits - 1)) by lia. reflexivity. }
    rewrite IH by lia.
    destruct (Nat.eq_dec b bits) as [->|Hne].
    + replace (S bits <=? bits)%nat with false by (symmetry; apply Nat.leb_gt; lia).
      replace (bits <=? bits)%nat with true by (symmetry; apply Nat.leb_le; lia).
      replace (bits <? bits + S k)%nat with true by (symmetry; apply Nat.ltb_lt; lia).
      replace (S bits - 1)%nat with bits by lia. cbn [andb].
      destruct (cnt bits =? 0); cbn [negb]; [reflexivity|].
      unfold upd. rewrite Nat.eqb_refl. reflexivity.
    + assert (Hu : (if cnt bits =? 0 then nc
                    else upd nc bits (code_at_bits cnt (S bits - 1))) b = nc b).
      { destruct (cnt bits =? 0); [reflexivity|]. unfold upd.
        apply Nat.eqb_neq in Hne. rewrite Hne. reflexivity. }
      rewrite Hu.
      replace ((S bits <=? b) && (b <? S bits + k))%nat
        with ((bits <=? b) && (b <? bits + S k))%nat; [reflexivity|].
      destruct (Nat.leb_spec (S bits) b), (Nat.ltb_spec b (S bits + k)),
               (Nat.leb_spec bits b), (Nat.ltb_spec b (bits + S k)); try reflexivity; lia.
Qed.

Lemma lens_from_cons (i : nat) (r : huffman_range) (rs : list huffman_range) :
  (i <= range_end r)%nat ->
  lens_from i (r :: rs) = range_bits r :: lens_from (S i) (r :: rs).
Proof.
  intros H. cbn [lens_from].
  replace (S (range_end r) - i)%nat with (S (S (range_end r) - S i)) by lia.
  reflexivity.
Qed.

Lemma lens_from_skip (r : huffman_range) (rs : list huffman_range) :
  lens_from (S (range_end r)) (r :: rs) = lens_from (S (range_end r)) rs.
Proof. cbn [lens_from]. rewrite Nat.sub_diag. reflexivity. Qed.

Lemma assign_codes_loop_nil (k i : nat) (nc : nat -> Z) (tree : nat -> tree_node) :
  assign_codes_loop k i [] nc tree = tree.
Proof. revert i; induction k as [|k IH]; intros i; [reflexivity|]. apply IH. Qed.

(** The C loop over [i] with its [active_range] bookkeeping walks the
    length vector symbol by symbol. *)
Lemma assign_codes_loop_lens (k i : nat) (r : huffman_range) (rs : list huffman_range)
    (nc : nat -> Z) (tree : nat -> tree_node) :
  (i <= S (range_end r))%nat -> ranges_wf (S (range_end r)) rs ->
  (length (lens_from i (r :: rs)) <= k)%nat ->
  assign_codes_loop k i (r :: rs) nc tree = assign_lens i (lens_from i (r :: rs)) nc tree.
Proof.
  revert i r rs nc tree; induction k as [|k IH]; intros i r rs nc tree Hi Hwf Hlen.
  - destruct (lens_from i (r :: rs)) eqn:E; [reflexivity|simpl in Hlen; lia].
  - destruct (Nat.leb_spec i (range_end r)) as [Hin|Hout].
    + rewrite (lens_from_cons i r rs Hin) in *. cbn [assign_codes_loop assign_lens].
      replace (range_end r <? i)%nat with false by (symmetry; apply Nat.ltb_ge; lia).
      cbn [hd]. cbn [length] in Hlen.
      destruct (Nat.eqb (range_bits r) 0); apply IH; auto; lia.
    + assert (i = S (range_end r)) by lia. subst i.
      rewrite lens_from_skip in *. cbn [assign_codes_loop].
      replace (range_end r <? S (range_end r))%nat with true
        by (symmetry; apply Nat.ltb_lt; lia).
      destruct rs as [|r2 rs2].
      * cbn [hd range_bits no_range Nat.eqb]. rewrite assign_codes_loop_nil. reflexivity.
      * destruct Hwf as [Hle2 Hwf2].
        rewrite (lens_from_cons _ r2 rs2 Hle2) in *. cbn [assign_lens hd]. cbn [length] in Hlen.
        destruct (Nat.eqb (range_bits r2) 0); apply IH; auto; lia.
Qed.

Lemma code_table_lens (rs : list huffman_range) :
  rs <> [] -> ranges_wf 0 rs ->
  code_table rs =
  assign_lens 0 (lens_from 0 rs)
    (next_code_loop (max_bit_length_loop rs 0) 1 0
       (count_codes_loop (-1) rs (fun _ => 0)) (fun _ => 0))
    (fun _ => mkTN 0 0).
Proof.
  intros Hne Hwf. pose proof (lens_from_length 0 rs Hne Hwf) as Hl.
  destruct rs as [|r rs]; [congruence|].
  unfold code_table. destruct Hwf as [H0 Hwf].
  apply assign_codes_loop_lens; [lia|exact Hwf|]. rewrite Hl. lia.
Qed.

Lemma assign_lens_below (L : list nat) (i : nat) (nc : nat -> Z)
    (tree : nat -> tree_node) (j : nat) :
  (j < i)%nat -> assign_lens i L nc tree j = tree j.
Proof.
  revert i nc tree; induction L as [|x L IH]; intros i nc tree Hj; [reflexivity|].
  cbn [assign_lens]. destruct (Nat.eqb x 0).
  - apply IH; lia.
  - rewrite IH by lia. unfold upd. destruct (Nat.eqb_spec j i); [lia|reflexivity].
Qed.

Lemma count_len_cons (b x : nat) (l : list nat) :
  count_len b (x :: l) = ((if Nat.eqb b x then 1 else 0) + count_len b l)%nat.
Proof. unfold count_len. simpl. destruct (Nat.eqb b x); reflexivity. Qed.

Lemma count_len_pos (b : nat) (l : list nat) : In b l -> (1 <= count_len b l)%nat.
Proof.
  induction l as [|x l IH]; intros Hin; [destruct Hin|].
  rewrite count_len_cons. destruct Hin as [->|Hin].
  - rewrite Nat.eqb_refl. lia.
  - specialize (IH Hin). lia.
Qed.

(** Symbol [p] of the vector gets the running [next_code] of its length. *)
Lemma assign_lens_at (L : list nat) (i p : nat) (nc : nat -> Z) (tree : nat -> tree_node) :
  (p < length L)%nat -> nth p L 0%nat <> 0%nat ->
  tn_bit_length (assign_lens i L nc tree (i + p)) = nth p L 0%nat /\
  tn_code (assign_lens i L nc tree (i + p)) mod 2 ^ 32 =
  (nc (nth p L 0%nat) + Z.of_nat (count_len (nth p L 0%nat) (firstn p L))) mod 2 ^ 32.
Proof.
  revert i p nc tree; induction L as [|x L IH]; intros i p nc tree Hp Hb;
    [simpl in Hp; lia|].
  destruct p as [|p].
  - cbn [nth firstn] in *. rewrite Nat.add_0_r.
    apply Nat.eqb_neq in Hb. cbn [assign_lens]. rewrite Hb.
    rewrite assign_lens_below by lia. unfold upd. rewrite Nat.eqb_refl.
    cbn [tn_bit_length tn_code]. split; [reflexivity|].
    unfold count_len. cbn [filter length Z.of_nat]. rewrite Z.add_0_r. reflexivity.
  - cbn [nth firstn] in *. simpl in Hp.
    replace (i + S p)%nat with (S i + p)%nat by lia. cbn [assign_lens].
    rewrite count_len_cons.
    destruct (Nat.eqb_spec x 0) as [Hx|Hx].
    + destruct (IH (S i) p nc tree ltac:(lia) Hb) as [H1 H2]. split; [exact H1|].
      rewrite H2. destruct (Nat.eqb_spec (nth p L 0%nat) x); [lia|reflexivity].
    + destruct (IH (S i) p (upd nc x ((nc x + 1) mod 2 ^ 32)) (upd tree i (mkTN (nc x) x))
                  ltac:(lia) Hb) as [H1 H2].
      split; [exact H1|]. rewrite H2. unfold upd.
      destruct (Nat.eqb_spec (nth p L 0%nat) x) as [->|Hn].
      * rewrite Z.add_mod_idemp_l by lia. f_equal. lia.
      * f_equal.
Qed.

Lemma mod_double_cong (a c A C m : Z) :
  m <> 0 -> a mod m = A mod m -> c mod m = C mod m ->
  ((a + c) * 2) mod m = ((A + C) * 2) mod m.
Proof.
  intros Hm Ha Hc.
  rewrite <- (Z.mul_mod_idemp_l (a + c)), <- (Z.mul_mod_idemp_l (A + C)) by exact Hm.
  rewrite (Z.add_mod a), (Z.add_mod A), Ha, Hc by exact Hm. reflexivity.
Qed.

(** [code] in the C loop against RFC 1951 [next_code]: the symbols of
    length 0 counted into [numof_codes_per_length[0]] add [z * 2^b]. *)
Lemma code_at_bits_rfc (cnt : nat -> Z) (lens : list nat) (b : nat) :
  (forall b', cnt b' mod 2 ^ 32 = Z.of_nat (count_len b' lens) mod 2 ^ 32) ->
  code_at_bits cnt (S b) mod 2 ^ 32 =
  (rfc_next_code lens (S b) + Z.of_nat (count_len 0 lens) * 2 ^ Z.of_nat (S b)) mod 2 ^ 32.
Proof.
  intros Hc. induction b as [|b IH].
  - change (code_at_bits cnt 1) with (Z.shiftl (0 + cnt 0%nat) 1 mod 2 ^ 32).
    change (rfc_next_code lens 1) with ((0 + bl_count lens 0) * 2).
    unfold bl_count. rewrite Nat.eqb_refl.
    rewrite Z.mod_mod, Z.shiftl_mul_pow2 by lia.
    change (2 ^ Z.of_nat 1) with 2. change (2 ^ 1) with 2.
    replace ((0 + 0) * 2 + Z.of_nat (count_len 0 lens) * 2)
      with ((0 + Z.of_nat (count_len 0 lens)) * 2) by ring.
    apply mod_double_cong; [lia|reflexivity|apply Hc].
  - change (code_at_bits cnt (S (S b)))
      with (Z.shiftl (code_at_bits cnt (S b) + cnt (S b)) 1 mod 2 ^ 32).
    change (rfc_next_code lens (S (S b)))
      with ((rfc_next_code lens (S b) + bl_count lens (S b)) * 2).
    unfold bl_count. cbn [Nat.eqb].
    rewrite Z.mod_mod, Z.shiftl_mul_pow2 by lia. change (2 ^ 1) with 2.
    rewrite (mod_double_cong _ _
               (rfc_next_code lens (S b) + Z.of_nat (count_len 0 lens) * 2 ^ Z.of_nat (S b))
               (Z.of_nat (count_len (S b) lens)) (2 ^ 32) ltac:(lia) IH (Hc (S b))).
    f_equal. rewrite (Nat2Z.inj_succ (S b)), Z.pow_succ_r by lia. ring.
Qed.

Lemma max_bit_length_loop_ge_acc (rs : list huffman_range) (m : nat) :
  (m <= max_bit_length_loop rs m)%nat.
Proof.
  revert m; induction rs as [|r rs IH]; intros m; simpl; [lia|].
  etransitivity; [|apply IH]. destruct (Nat.ltb_spec m (range_bits r)); lia.
Qed.

Lemma max_bit_length_loop_ge (rs : list huffman_range) (m : nat) (r : huffman_range) :
  In r rs -> (range_bits r <= max_bit_length_loop rs m)%nat.
Proof.
  revert m; induction rs as [|r' rs IH]; intros m Hin; [destruct Hin|].
  destruct Hin as [->|Hin]; simpl.
  - etransitivity; [|apply max_bit_length_loop_ge_acc].
    destruct (Nat.ltb_spec m (range_bits r)); lia.
  - apply IH, Hin.
Qed.

Lemma lens_from_in (start : nat) (rs : list huffman_range) (b : nat) :
  In b (lens_from start rs) -> exists r, In r rs /\ range_bits r = b.
Proof.
  revert start; induction rs as [|r rs IH]; intros start Hin; [destruct Hin|].
  cbn [lens_from] in Hin. apply in_app_or in Hin as [Hin|Hin].
  - apply repeat_spec in Hin. exists r. split; [left; reflexivity|symmetry; exact Hin].
  - destruct (IH _ Hin) as [r' [H1 H2]]. exists r'. split; [right; exact H1|exact H2].
Qed.

Lemma land_pow2_eqb (x k : Z) :
  0 <= k -> (Z.land x (2 ^ k) =? 0) = negb (Z.testbit x k).
Proof.
  intros Hk. pose proof (land_pow2_bit x k Hk) as H.
  destruct (Z.land x (2 ^ k) =? 0), (Z.testbit x k); simpl in *; congruence.
Qed.

(** The path of a code of [b] bits reads only its low [b] bits. *)
Lemma code_path_mod (b : nat) (x y : Z) :
  x mod 2 ^ Z.of_nat b = y mod 2 ^ Z.of_nat b -> code_path b x = code_path b y.
Proof.
  induction b as [|b IH]; intros H; [reflexivity|].
  cbn [code_path]. rewrite !Z.shiftl_1_l, !land_pow2_eqb by lia.
  rewrite <- (Z.mod_pow2_bits_low x (Z.of_nat (S b))),
          <- (Z.mod_pow2_bits_low y (Z.of_nat (S b))) by lia.
  rewrite H. f_equal. apply IH.
  assert (Hd : (2 ^ Z.of_nat b | 2 ^ Z.of_nat (S b))).
  { exists 2. rewrite Nat2Z.inj_succ, Z.pow_succ_r by lia. ring. }
  rewrite <- (Z.mod_mod_divide x _ _ Hd), <- (Z.mod_mod_divide y _ _ Hd), H.
  reflexivity.
Qed.

(** Claim C6: for a length vector given as ranges (ends strictly increasing),
    every symbol [i] of nonzero length [b] gets length [b] in the code table,
    and [build_huffman_tree] inserts it along the path of its RFC 1951 3.2.2
    canonical code: [next_code[b]] from [code = (code + bl_count[b-1]) << 1]
    with [bl_count[0] = 0], plus the number of symbols of length [b] before
    [i].  The stored [code] can differ from the RFC value by a multiple of
    [2^b] (symbols of length 0 are counted into [numof_codes_per_length[0]]);
    the insertion reads only the low [b] bits, so the path is the same. *)
Theorem build_huffman_tree_canonical (rs : list huffman_range) (i : nat) :
  rs <> [] -> ranges_wf 0 rs -> Z.of_nat (last_end rs) < 2 ^ 31 ->
  (0 < nth i (lens_from 0 rs) 0 <= 32)%nat ->
  tn_bit_length (code_table rs i) = nth i (lens_from 0 rs) 0%nat /\
  symbol_path rs i = code_path (nth i (lens_from 0 rs) 0%nat) (rfc_code (lens_from 0 rs) i).
Proof.
  intros Hne Hwf Hlast Hb.
  assert (Hlen : length (lens_from 0 rs) = S (last_end rs)) by (apply lens_from_length; auto).
  set (lens := lens_from 0 rs) in *.
  set (b := nth i lens 0%nat) in *.
  assert (Hi : (i < length lens)%nat).
  { destruct (Nat.lt_ge_cases i (length lens)) as [H|H]; [exact H|].
    unfold b in Hb. rewrite nth_overflow in Hb by exact H. lia. }
  set (cnt := count_codes_loop (-1) rs (fun _ => 0)).
  set (nc := next_code_loop (max_bit_length_loop rs 0) 1 0 cnt (fun _ => 0)).
  assert (Htab : code_table rs = assign_lens 0 lens nc (fun _ => mkTN 0 0))
    by (apply code_table_lens; auto).
  destruct (assign_lens_at lens 0 i nc (fun _ => mkTN 0 0) Hi ltac:(lia)) as [Hbl Hcode].
  rewrite Nat.add_0_l in Hbl, Hcode. fold b in Hbl, Hcode.
  split; [rewrite Htab; exact Hbl|].
  unfold symbol_path. rewrite Htab, Hbl. apply code_path_mod.
  assert (Hcnt : forall b', cnt b' mod 2 ^ 32 = Z.of_nat (count_len b' lens) mod 2 ^ 32).
  { intros b'. pose proof (count_codes_loop_mod rs 0 (fun _ => 0) b' Hwf) as H.
    rewrite Z.add_0_l in H. exact H. }
  assert (Hin : In b lens) by (apply nth_In; exact Hi).
  assert (Hpos : (1 <= count_len b lens)%nat) by (apply count_len_pos; exact Hin).
  assert (Hle : (count_len b lens <= length lens)%nat) by apply count_len_le.
  assert (Hnz : (cnt b =? 0) = false).
  { apply Z.eqb_neq. intros E. specialize (Hcnt b). rewrite E, Z.mod_0_l in Hcnt by lia.
    rewrite Z.mod_small in Hcnt by lia. lia. }
  assert (Hmax : (b <= max_bit_length_loop rs 0)%nat).
  { destruct (lens_from_in 0 rs b Hin) as [r [Hr Hrb]]. rewrite <- Hrb.
    apply max_bit_length_loop_ge, Hr. }
  assert (Hnc : nc b = code_at_bits cnt b).
  { pose proof (next_code_loop_spec (max_bit_length_loop rs 0) 1 cnt (fun _ => 0) b
                  ltac:(lia)) as H.
    change (code_at_bits cnt (1 - 1)) with 0 in H.
    replace ((1 <=? b) && (b <? 1 + max_bit_length_loop rs 0))%nat with true in H
      by (symmetry; apply andb_true_intro; split; [apply Nat.leb_le|apply Nat.ltb_lt]; lia).
    rewrite Hnz in H. exact H. }
  assert (Hcb : code_at_bits cnt b mod 2 ^ 32 =
                (rfc_next_code lens b + Z.of_nat (count_len 0 lens) * 2 ^ Z.of_nat b)
                mod 2 ^ 32).
  { replace b with (S (b - 1)) by lia. apply code_at_bits_rfc, Hcnt. }
  assert (Hpz : 2 ^ Z.of_nat b <> 0) by (apply Z.pow_nonzero; lia).
  assert (Hd : (2 ^ Z.of_nat b | 2 ^ 32)).
  { exists (2 ^ (32 - Z.of_nat b)). rewrite <- Z.pow_add_r by lia. f_equal. lia. }
  rewrite <- (Z.mod_mod_divide (tn_code _) _ _ Hd), Hcode, Hnc.
  rewrite (Z.mod_mod_divide _ _ _ Hd).
  rewrite Z.add_mod by exact Hpz.
  rewrite <- (Z.mod_mod_divide (code_at_bits cnt b) _ _ Hd), Hcb, (Z.mod_mod_divide _ _ _ Hd).
  rewrite Z.mod_add by exact Hpz.
  rewrite <- Z.add_mod by exact Hpz.
  reflexivity.
Qed.

Lemma build_huffman_tree_canonical_witness :
  fixed_ranges <> [] /\ ranges_wf 0 fixed_ranges /\
  Z.of_nat (last_end fixed_ranges) < 2 ^ 31 /\
  (0 < nth 65 (lens_from 0 fixed_ranges) 0 <= 32)%nat /\
  tn_bit_length (code_table fixed_ranges 65) = nth 65 (lens_from 0 fixed_ranges) 0%nat /\
  symbol_path fixed_ranges 65 =
  code_path (nth 65 (lens_from 0 fixed_ranges) 0%nat) (rfc_code (lens_from 0 fixed_ranges) 65).
Proof.
  assert (H1 : fixed_ranges <> []) by discriminate.
  assert (H2 : ranges_wf 0 fixed_ranges) by (cbn; lia).
  assert (H3 : Z.of_nat (last_end fixed_ranges) < 2 ^ 31) by (vm_compute; reflexivity).
  assert (H4 : (0 < nth 65 (lens_from 0 fixed_ranges) 0 <= 32)%nat).
  { assert (E : nth 65 (lens_from 0 fixed_ranges) 0%nat = 8%nat) by reflexivity.
    rewrite E. lia. }
  split; [exact H1|]. split; [exact H2|]. split; [exact H3|]. split; [exact H4|].
  exact (build_huffman_tree_canonical fixed_ranges 65 H1 H2 H3 H4).
Defined.

(** * Further properties of the code *)

(** ** [read_string] *)

Lemma read_string_loop_nul (buffer s rest : list Z) :
  Forall (fun c => c <> 0) s -> (length buffer + length s < MAX_BUF)%nat ->
  read_string_loop buffer (s ++ 0 :: rest) = Ok (Some (buffer ++ s ++ [0]), rest).
Proof.
  revert buffer; induction s as [|c s IH]; intros buffer Hs Hlen.
  - cbn [app read_string_loop]. simpl in Hlen.
    replace (MAX_BUF <=? length buffer)%nat with false by (symmetry; apply Nat.leb_gt; lia).
    reflexivity.
  - inversion Hs as [|? ? Hc Hs']; subst. cbn [app read_string_loop]. simpl in Hlen.
    replace (MAX_BUF <=? length buffer)%nat with false by (symmetry; apply Nat.leb_gt; lia).
    apply Z.eqb_neq in Hc. rewrite Hc.
    rewrite IH by (auto; rewrite length_app; simpl; lia).
    rewrite <- app_assoc. reflexivity.
Qed.

(** [read_string] returns the bytes up to and including the first NUL and
    leaves the input right after it, for strings of at most 254 bytes. *)
Theorem read_string_roundtrip (s rest : list Z) :
  Forall (fun c => c <> 0) s -> (length s < MAX_BUF)%nat ->
  read_string (s ++ 0 :: rest) = Ok (Some (s ++ [0]), rest).
Proof. intros Hs Hlen. apply (read_string_loop_nul [] s rest Hs Hlen). Qed.

Lemma read_string_roundtrip_witness :
  Forall (fun c => c <> 0) [104; 105] /\ (length [104; 105] < MAX_BUF)%nat /\
  read_string ([104; 105] ++ 0 :: [7]) = Ok (Some ([104; 105] ++ [0]), [7]).
Proof.
  assert (H1 : Forall (fun c => c <> 0) [104; 105]) by (repeat constructor; discriminate).
  assert (H2 : (length [104; 105] < MAX_BUF)%nat) by (vm_compute; lia).
  split; [exact H1|]. split; [exact H2|].
  exact (read_string_roundtrip [104; 105] [7] H1 H2).
Defined.

Lemma read_string_loop_eof (buffer s : list Z) :
  Forall (fun c => c <> 0) s -> (length buffer + length s <= MAX_BUF)%nat ->
  read_string_loop buffer s = Ok (None, []).
Proof.
  revert buffer; induction s as [|c s IH]; intros buffer Hs Hlen; [reflexivity|].
  inversion Hs as [|? ? Hc Hs']; subst. cbn [read_string_loop]. simpl in Hlen.
  replace (MAX_BUF <=? length buffer)%nat with false by (symmetry; apply Nat.leb_gt; lia).
  apply Z.eqb_neq in Hc. rewrite Hc.
  apply IH; [exact Hs'|rewrite length_app; simpl; lia].
Qed.

Lemma read_string_loop_overflow (buffer s : list Z) (c : Z) (rest : list Z) :
  Forall (fun c => c <> 0) s -> (length buffer + length s = MAX_BUF)%nat ->
  read_string_loop buffer (s ++ c :: rest) = Fault BufferOverflow.
Proof.
  revert buffer; induction s as [|c' s IH]; intros buffer Hs Hlen.
  - cbn [app read_string_loop]. simpl in Hlen. rewrite Nat.add_0_r in Hlen.
    rewrite Hlen, Nat.leb_refl. reflexivity.
  - inversion Hs as [|? ? Hc Hs']; subst. cbn [app read_string_loop]. simpl in Hlen.
    replace (MAX_BUF <=? length buffer)%nat with false by (symmetry; apply Nat.leb_gt; lia).
    apply Z.eqb_neq in Hc. rewrite Hc.
    apply IH; [exact Hs'|rewrite length_app; simpl; lia].
Qed.

(** Without a NUL, [read_string] returns [false] when the input ends within
    255 bytes; once 255 non-NUL bytes are buffered, reading one more byte
    writes past [buffer[MAX_BUF]]. *)
Theorem read_string_unterminated (s : list Z) :
  Forall (fun c => c <> 0) s ->
  ((length s <= MAX_BUF)%nat -> read_string s = Ok (None, [])) /\
  (length s = MAX_BUF ->
   forall c rest, read_string (s ++ c :: rest) = Fault BufferOverflow).
Proof.
  intros Hs. split.
  - intros Hl. apply read_string_loop_eof; [exact Hs|exact Hl].
  - intros Hl c rest. apply read_string_loop_overflow; [exact Hs|exact Hl].
Qed.

Lemma read_string_unterminated_witness :
  Forall (fun c => c <> 0) (repeat 1 255) /\
  read_string (repeat 1 255) = Ok (None, []) /\
  read_string (repeat 1 255 ++ 0 :: []) = Fault BufferOverflow.
Proof.
  assert (H : Forall (fun c => c <> 0) (repeat 1 255)).
  { apply Forall_forall. intros x Hx. apply repeat_spec in Hx. lia. }
  destruct (read_string_unterminated (repeat 1 255) H) as [H1 H2].
  split; [exact H|]. split.
  - apply H1. rewrite repeat_length. apply Nat.le_refl.
  - apply H2. rewrite repeat_length. reflexivity.
Defined.

(** ** [main] *)

Lemma then_do_some {A B : Type} (m : res (option A)) (k : A -> res (option B)) (v : B) :
  then_do m k = Ok (Some v) -> exists a, m = Ok (Some a) /\ k a = Ok (Some v).
Proof. destruct m as [[a|]|f]; simpl; [eauto|discriminate|discriminate]. Qed.

Lemma fread_item_some (n : nat) (src x s : list Z) :
  fread_item n src = Some (x, s) -> x = firstn n src /\ (n <= length src)%nat.
Proof.
  unfold fread_item. destruct (n =? 0)%nat; [discriminate|].
  destruct (Nat.leb_spec n (length src)); [|discriminate].
  intros E. injection E as <- <-. auto.
Qed.

Lemma nth_firstn_lt (k n : nat) (l : list Z) (d : Z) :
  (k < n)%nat -> nth k (firstn n l) d = nth k l d.
Proof.
  revert k l; induction n as [|n IH]; intros k l Hk; [lia|].
  destruct l as [|x l]; [destruct k; reflexivity|].
  destruct k as [|k]; [reflexivity|]. cbn [firstn nth]. apply IH. lia.
Qed.

(** [main] creates an output file only for a gzip member with the magic
    bytes 31 139, compression method 8 and the [FNAME] flag set, and only
    under the stored name when no file of that name exists. *)
Theorem main_creates_file_only_if (fuel : nat) (target_exists : list Z -> bool)
    (src name out : list Z) :
  main_model fuel target_exists src = Ok (Some (name, out)) ->
  nth 0 src 0 = 31 /\ nth 1 src 0 = 139 /\ nth 2 src 0 = 8 /\
  Z.land (nth 3 src 0) FNAME <> 0 /\ target_exists name = false.
Proof.
  intros H. unfold main_model in H.
  apply then_do_some in H as [[header s1] [Hf H]]. injection Hf as Hf.
  apply fread_item_some in Hf as [-> Hl].
  rewrite !nth_firstn_lt in H by lia.
  destruct ((nth 0 src 0 =? 31) && (nth 1 src 0 =? 139)) eqn:E1;
    cbn [negb] in H; [|discriminate].
  destruct (nth 2 src 0 =? 8) eqn:E2; cbn [negb] in H; [|discriminate].
  apply andb_prop in E1 as [E1a E1b].
  apply Z.eqb_eq in E1a, E1b, E2.
  cbv zeta in H.
  apply then_do_some in H as [s2 [_ H]].
  apply then_do_some in H as [[fname s3] [Hfn H]].
  cbn beta iota in H.
  apply then_do_some in H as [s4 [_ H]].
  apply then_do_some in H as [s5 [_ H]].
  destruct fname as [nm|]; [|discriminate].
  destruct (target_exists (removelast nm)) eqn:Ex; [discriminate|].
  destruct (inflate fuel s5) as [[b w]|f]; cbn in H; [|discriminate].
  injection H as <- <-.
  destruct (Z.land (nth 3 src 0) FNAME =? 0) eqn:E3; [discriminate|].
  apply Z.eqb_neq in E3. auto.
Qed.

Lemma main_creates_file_only_if_witness :
  main_model 100 (fun _ => false) ([31; 139; 8; 8; 0; 0; 0; 0; 0; 3] ++ [97; 0] ++ one_block_stream)
  = Ok (Some ([97], [65; 65; 65; 65])) /\
  nth 0 ([31; 139; 8; 8; 0; 0; 0; 0; 0; 3] ++ [97; 0] ++ one_block_stream) 0 = 31 /\
  nth 1 ([31; 139; 8; 8; 0; 0; 0; 0; 0; 3] ++ [97; 0] ++ one_block_stream) 0 = 139 /\
  nth 2 ([31; 139; 8; 8; 0; 0; 0; 0; 0; 3] ++ [97; 0] ++ one_block_stream) 0 = 8 /\
  Z.land (nth 3 ([31; 139; 8; 8; 0; 0; 0; 0; 0; 3] ++ [97; 0] ++ one_block_stream) 0) FNAME
    <> 0 /\
  (fun _ : list Z => false) [97] = false.
Proof.
  assert (H : main_model 100 (fun _ => false)
                ([31; 139; 8; 8; 0; 0; 0; 0; 0; 3] ++ [97; 0] ++ one_block_stream)
              = Ok (Some ([97], [65; 65; 65; 65]))) by (vm_compute; reflexivity).
  split; [exact H|].
  exact (main_creates_file_only_if 100 (fun _ => false) _ [97] [65; 65; 65; 65] H).
Defined.

(** A member whose only flag is [FNAME] is decoded into a new file named
    by the stored name: [main] reads the 10-byte header and the name up to
    its NUL, then the file holds exactly what [inflate] writes for the rest
    of the input, whether [inflate] returns [true] or [false]. *)
Theorem main_gzip_member (fuel : nat) (target_exists : list Z -> bool)
    (mt name body : list Z) :
  length mt = 6%nat -> Forall (fun c => c <> 0) name -> (length name < MAX_BUF)%nat ->
  target_exists name = false ->
  main_model fuel target_exists ([31; 139; 8; FNAME] ++ mt ++ name ++ 0 :: body) =
  let* '(_, w) := inflate fuel body in Ok (Some (name, w_out w)).
Proof.
  intros Hmt Hname Hlen Hex.
  destruct mt as [|m0 [|m1 [|m2 [|m3 [|m4 [|m5 [|]]]]]]]; try discriminate.
  unfold main_model, fread_item.
  cbn -[inflate read_string removelast].
  unfold read_string. rewrite (read_string_loop_nul [] name body Hname Hlen).
  cbn -[inflate removelast]. rewrite removelast_last, Hex. reflexivity.
Qed.

Lemma main_gzip_member_witness :
  length [0; 0; 0; 0; 0; 3] = 6%nat /\ Forall (fun c => c <> 0) [97] /\
  (length [97] < MAX_BUF)%nat /\ (fun _ : list Z => false) [97] = false /\
  main_model 100 (fun _ => false) ([31; 139; 8; FNAME] ++ [0; 0; 0; 0; 0; 3] ++ [97] ++ 0 :: one_block_stream) =
  let* '(_, w) := inflate 100 one_block_stream in Ok (Some ([97], w_out w)).
Proof.
  assert (H1 : length [0; 0; 0; 0; 0; 3] = 6%nat) by reflexivity.
  assert (H2 : Forall (fun c => c <> 0) [97]) by (repeat constructor; discriminate).
  assert (H3 : (length [97] < MAX_BUF)%nat) by (vm_compute; lia).
  assert (H4 : (fun _ : list Z => false) [97] = false) by reflexivity.
  split; [exact H1|]. split; [exact H2|]. split; [exact H3|]. split; [exact H4|].
  exact (main_gzip_member 100 (fun _ => false) _ [97] one_block_stream H1 H2 H3 H4).
Defined.

(** With [FEXTRA] set and [XLEN = 0], [fread(gzip.extra, 0, 1, in)] returns
    0 and [main] stops without creating an output file. *)
Theorem main_fextra_empty (fuel : nat) (target_exists : list Z -> bool) (flg : Z)
    (mt rest : list Z) :
  length mt = 6%nat -> Z.land flg FEXTRA <> 0 ->
  main_model fuel target_exists ([31; 139; 8; flg] ++ mt ++ [0; 0] ++ rest) = Ok None.
Proof.
  intros Hmt Hf. apply Z.eqb_neq in Hf.
  destruct mt as [|m0 [|m1 [|m2 [|m3 [|m4 [|m5 [|]]]]]]]; try discriminate.
  unfold main_model. cbn -[inflate read_string FEXTRA].
  rewrite Hf. reflexivity.
Qed.

Lemma main_fextra_empty_witness :
  length [0; 0; 0; 0; 0; 3] = 6%nat /\ Z.land 4 FEXTRA <> 0 /\
  main_model 100 (fun _ => false) ([31; 139; 8; 4] ++ [0; 0; 0; 0; 0; 3] ++ [0; 0] ++ one_block_stream)
  = Ok None.
Proof.
  assert (H1 : length [0; 0; 0; 0; 0; 3] = 6%nat) by reflexivity.
  assert (H2 : Z.land 4 FEXTRA <> 0) by discriminate.
  split; [exact H1|]. split; [exact H2|].
  exact (main_fextra_empty 100 (fun _ => false) 4 _ one_block_stream H1 H2).
Defined.

(** ** The decoding trie built by [build_huffman_tree] *)

Lemma insert_path_lookup_self (p : list bool) (s : Z) (n n' : huffman_node) :
  insert_path p s n = Ok n' -> lookup n' p = Some s.
Proof.
  revert n n'; induction p as [|b p IH]; intros [c l r] n' H; cbn [insert_path] in H.
  - destruct (c =? -1); [|discriminate]. injection H as <-. reflexivity.
  - destruct b.
    + destruct (insert_path p s (match r with Some x => x | None => new_node end)) as [x|f]
        eqn:E; cbn in H; [|discriminate].
      injection H as <-. cbn. exact (IH _ _ E).
    + destruct (insert_path p s (match l with Some x => x | None => new_node end)) as [x|f]
        eqn:E; cbn in H; [|discriminate].
      injection H as <-. cbn. exact (IH _ _ E).
Qed.

Lemma insert_path_lookup_other (p : list bool) (s : Z) (n n' : huffman_node)
    (q : list bool) (c : Z) :
  insert_path p s n = Ok n' -> lookup n q = Some c -> c <> -1 -> lookup n' q = Some c.
Proof.
  revert n n' q; induction p as [|b p IH]; intros [c0 l r] n' q H Hq Hc;
    cbn [insert_path] in H.
  - destruct (Z.eqb_spec c0 (-1)) as [->|]; [|discriminate]. injection H as <-.
    destruct q as [|b' q]; [cbn in Hq; congruence|exact Hq].
  - destruct b.
    + destruct (insert_path p s (match r with Some x => x | None => new_node end)) as [x|f]
        eqn:E; cbn in H; [|discriminate].
      injection H as <-.
      destruct q as [|[|] q]; cbn in Hq |- *; [exact Hq| |exact Hq].
      destruct r as [y|]; [|discriminate]. exact (IH _ _ _ E Hq Hc).
    + destruct (insert_path p s (match l with Some x => x | None => new_node end)) as [x|f]
        eqn:E; cbn in H; [|discriminate].
      injection H as <-.
      destruct q as [|[|] q]; cbn in Hq |- *; [exact Hq|exact Hq|].
      destruct l as [y|]; [|discriminate]. exact (IH _ _ _ E Hq Hc).
Qed.

Lemma insert_loop_lookup (k i : nat) (tree : nat -> tree_node) (root root' : huffman_node) :
  insert_loop k i tree root = Ok root' ->
  (forall q c, lookup root q = Some c -> c <> -1 -> lookup root' q = Some c) /\
  (forall j, (i <= j < i + k)%nat -> tn_bit_length (tree j) <> 0%nat ->
     lookup root' (code_path (tn_bit_length (tree j)) (tn_code (tree j))) = Some (Z.of_nat j)).
Proof.
  revert i root; induction k as [|k IH]; intros i root H; cbn [insert_loop] in H.
  - injection H as <-. split; [auto|intros j Hj; lia].
  - destruct (Nat.eqb_spec (tn_bit_length (tree i)) 0) as [Hz|Hz].
    + destruct (IH _ _ H) as [H1 H2]. split; [exact H1|].
      intros j Hj Hb. destruct (Nat.eq_dec j i) as [->|Hne]; [congruence|].
      apply H2; [lia|exact Hb].
    + destruct (insert_path (code_path (tn_bit_length (tree i)) (tn_code (tree i)))
                  (Z.of_nat i) root) as [x|f] eqn:E; cbn in H; [|discriminate].
      destruct (IH _ _ H) as [H1 H2]. split.
      * intros q c Hq Hc. apply H1; [|exact Hc].
        exact (insert_path_lookup_other _ _ _ _ _ _ E Hq Hc).
      * intros j Hj Hb. destruct (Nat.eq_dec j i) as [->|Hne].
        -- apply H1; [exact (insert_path_lookup_self _ _ _ _ E)|lia].
        -- apply H2; [lia|exact Hb].
Qed.

Lemma insert_path_fault (p : list bool) (s : Z) (n : huffman_node) (f : fault) :
  insert_path p s n = Fault f -> f = AssertFailed.
Proof.
  revert n; induction p as [|b p IH]; intros [c l r] H; cbn [insert_path] in H.
  - destruct (c =? -1); congruence.
  - destruct b.
    + destruct (insert_path p s (match r with Some x => x | None => new_node end)) eqn:E;
        cbn in H; [discriminate|]. injection H as <-. exact (IH _ E).
    + destruct (insert_path p s (match l with Some x => x | None => new_node end)) eqn:E;
        cbn in H; [discriminate|]. injection H as <-. exact (IH _ E).
Qed.

Lemma insert_loop_fault (k i : nat) (tree : nat -> tree_node) (root : huffman_node) (f : fault) :
  insert_loop k i tree root = Fault f -> f = AssertFailed.
Proof.
  revert i root; induction k as [|k IH]; intros i root H; cbn [insert_loop] in H;
    [discriminate|].
  destruct (Nat.eqb (tn_bit_length (tree i)) 0); [exact (IH _ _ H)|].
  destruct (insert_path _ _ root) eqn:E; cbn in H.
  - exact (IH _ _ H).
  - injection H as <-. exact (insert_path_fault _ _ _ _ E).
Qed.

Lemma build_huffman_tree_lookup_gen (rs : list huffman_range) (root : huffman_node) (i : nat) :
  build_huffman_tree rs = Ok root -> (i <= last_end rs)%nat ->
  tn_bit_length (code_table rs i) <> 0%nat ->
  lookup root (symbol_path rs i) = Some (Z.of_nat i).
Proof.
  intros H Hi Hb. destruct rs as [|r rs']; [discriminate|].
  unfold build_huffman_tree in H.
  destruct (insert_loop_lookup _ _ _ _ _ H) as [_ H2].
  unfold symbol_path. apply H2; [lia|exact Hb].
Qed.

(** Insert/lookup: when [build_huffman_tree] succeeds, following the path of
    the code it assigned to symbol [i] (bit [bit_length - 1] first, [1] to
    [rhs]) from the root ends at a node whose [code] is [i], for every
    symbol of nonzero length. *)
Theorem build_huffman_tree_lookup (rs : list huffman_range) (root : huffman_node) (i : nat) :
  build_huffman_tree rs = Ok root -> (i <= last_end rs)%nat ->
  tn_bit_length (code_table rs i) <> 0%nat ->
  lookup root (symbol_path rs i) = Some (Z.of_nat i).
Proof. exact (build_huffman_tree_lookup_gen rs root i). Qed.

Lemma build_huffman_tree_lookup_witness :
  build_huffman_tree fixed_ranges = Ok fixed_root /\ (65 <= last_end fixed_ranges)%nat /\
  tn_bit_length (code_table fixed_ranges 65) <> 0%nat /\
  lookup fixed_root (symbol_path fixed_ranges 65) = Some 65.
Proof.
  assert (H1 : build_huffman_tree fixed_ranges = Ok fixed_root) by (vm_compute; reflexivity).
  assert (H2 : (65 <= last_end fixed_ranges)%nat) by (vm_compute; lia).
  assert (H3 : tn_bit_length (code_table fixed_ranges 65) <> 0%nat) by (vm_compute; discriminate).
  split; [exact H1|]. split; [exact H2|]. split; [exact H3|].
  exact (build_huffman_tree_lookup fixed_ranges fixed_root 65 H1 H2 H3).
Defined.

(** [build_huffman_tree] fails its [assert(node->code == -1)] whenever two
    symbols of nonzero length are assigned the same code path, e.g. for an
    over-subscribed length vector. *)
Theorem build_huffman_tree_collision (rs : list huffman_range) (i j : nat) :
  (i < j <= last_end rs)%nat ->
  tn_bit_length (code_table rs i) <> 0%nat -> tn_bit_length (code_table rs j) <> 0%nat ->
  symbol_path rs i = symbol_path rs j ->
  build_huffman_tree rs = Fault AssertFailed.
Proof.
  intros Hij Hi Hj Hp.
  destruct (build_huffman_tree rs) as [root|f] eqn:E.
  - pose proof (build_huffman_tree_lookup_gen rs root i E ltac:(lia) Hi) as L1.
    pose proof (build_huffman_tree_lookup_gen rs root j E ltac:(lia) Hj) as L2.
    rewrite Hp, L2 in L1. injection L1 as L1. lia.
  - destruct rs as [|r rs']; [cbn in Hij; lia|].
    unfold build_huffman_tree in E. rewrite (insert_loop_fault _ _ _ _ _ E). reflexivity.
Qed.

Lemma build_huffman_tree_collision_witness :
  (0 < 2 <= last_end [mkRange 2 1])%nat /\
  tn_bit_length (code_table [mkRange 2 1] 0) <> 0%nat /\
  tn_bit_length (code_table [mkRange 2 1] 2) <> 0%nat /\
  symbol_path [mkRange 2 1] 0 = symbol_path [mkRange 2 1] 2 /\
  build_huffman_tree [mkRange 2 1] = Fault AssertFailed.
Proof.
  assert (H1 : (0 < 2 <= last_end [mkRange 2 1])%nat) by (vm_compute; lia).
  assert (H2 : tn_bit_length (code_table [mkRange 2 1] 0) <> 0%nat) by (vm_compute; discriminate).
  assert (H3 : tn_bit_length (code_table [mkRange 2 1] 2) <> 0%nat) by (vm_compute; discriminate).
  assert (H4 : symbol_path [mkRange 2 1] 0 = symbol_path [mkRange 2 1] 2) by (vm_compute; reflexivity).
  split; [exact H1|]. split; [exact H2|]. split; [exact H3|]. split; [exact H4|].
  exact (build_huffman_tree_collision [mkRange 2 1] 0 2 H1 H2 H3 H4).
Defined.

(** ** The bit reader on byte boundaries *)

Lemma byte_lsb_value (y : Z) :
  0 <= y < 256 ->
  lsb_value [if Z.land y 1 =? 0 then 0 else 1; if Z.land y 2 =? 0 then 0 else 1;
             if Z.land y 4 =? 0 then 0 else 1; if Z.land y 8 =? 0 then 0 else 1;
             if Z.land y 16 =? 0 then 0 else 1; if Z.land y 32 =? 0 then 0 else 1;
             if Z.land y 64 =? 0 then 0 else 1; if Z.land y 128 =? 0 then 0 else 1] = y.
Proof.
  intros Hy.
  assert (H : forallb (fun y =>
     lsb_value [if Z.land y 1 =? 0 then 0 else 1; if Z.land y 2 =? 0 then 0 else 1;
                if Z.land y 4 =? 0 then 0 else 1; if Z.land y 8 =? 0 then 0 else 1;
                if Z.land y 16 =? 0 then 0 else 1; if Z.land y 32 =? 0 then 0 else 1;
                if Z.land y 64 =? 0 then 0 else 1; if Z.land y 128 =? 0 then 0 else 1] =? y)
     (map Z.of_nat (seq 0 256)) = true) by (vm_compute; reflexivity).
  rewrite forallb_forall in H. apply Z.eqb_eq, H.
  apply in_map_iff. exists (Z.to_nat y). split; [lia|apply in_seq; lia].
Qed.

(** On a byte boundary ([mask = 1]), [read_bits_and_invert(stream, 8)]
    returns the buffered byte unchanged and fetches the next byte.  At the
    end of the input the fetch fails: [buf] keeps the byte, [feof] is set,
    and the next read returns the same byte again. *)
Theorem read_bits_and_invert_byte (w : world) :
  w_mask w = 1 -> 0 <= w_buf w < 256 ->
  read_bits_and_invert w 8 = (w_buf w, fread_buf (set_mask 1 w)).
Proof.
  intros Hm Hb. rewrite read_bits_and_invert_value by lia.
  destruct w as [src eof buf mask out]; cbn in Hm, Hb; subst mask.
  cbn -[lsb_value]. rewrite byte_lsb_value by exact Hb. reflexivity.
Qed.

Lemma read_bits_and_invert_byte_witness :
  w_mask (start_world [200; 7]) = 1 /\ 0 <= w_buf (start_world [200; 7]) < 256 /\
  read_bits_and_invert (start_world [200; 7]) 8 =
  (w_buf (start_world [200; 7]), fread_buf (set_mask 1 (start_world [200; 7]))).
Proof.
  assert (H1 : w_mask (start_world [200; 7]) = 1) by reflexivity.
  assert (H2 : 0 <= w_buf (start_world [200; 7]) < 256) by (vm_compute; split; [discriminate|reflexivity]).
  split; [exact H1|]. split; [exact H2|].
  exact (read_bits_and_invert_byte (start_world [200; 7]) H1 H2).
Defined.

(** ** Distances *)

Lemma extra_dist_addend_range (d : Z) :
  4 <= d <= 29 ->
  exists a, table_get extra_dist_addend (d - 4) = Ok a /\
    4 <= a /\ a + 2 ^ Z.of_nat (Z.to_nat ((d - 2) / 2)) <= 32768.
Proof.
  intros Hd.
  replace d with (4 + Z.of_nat (Z.to_nat (d - 4))) by lia.
  assert (Hi : (Z.to_nat (d - 4) < 26)%nat) by lia.
  generalize (Z.to_nat (d - 4)) Hi. clear Hd Hi. intros i Hi.
  do 26 (destruct i as [|i]; [eexists; split; [reflexivity|]; vm_compute; split; discriminate|]).
  lia.
Qed.

(** A distance symbol [d] in [0, 29] yields [dist] in [0, 32767], so the copy
    starts between 1 and 32768 bytes back; the symbols 30 and 31, which a
    fixed block's 5-bit distance field can hold, index past the 26 entries
    of [extra_dist_addend]. *)
Theorem decode_distance_range (d : Z) (w : world) :
  (0 <= d <= 29 -> exists dist w', decode_distance d w = Ok (dist, w') /\ 0 <= dist <= 32767) /\
  (d = 30 \/ d = 31 -> decode_distance d w = Fault TableIndex).
Proof.
  split.
  - intros Hd. unfold decode_distance. destruct (Z.ltb_spec 3 d).
    + destruct (extra_dist_addend_range d ltac:(lia)) as [a [Ha [Ha1 Ha2]]].
      assert (Hn : (Z.to_nat ((d - 2) / 2) <= 32)%nat).
      { assert ((d - 2) / 2 <= 14) by (apply Z.div_le_upper_bound; lia). lia. }
      pose proof (read_bits_and_invert_range _ w Hn) as Hr.
      destruct (read_bits_and_invert w (Z.to_nat ((d - 2) / 2))) as [x w1].
      cbn [fst] in Hr. rewrite Ha. cbn.
      exists (x + a), w1. split; [reflexivity|lia].
    + exists d, w. split; [reflexivity|lia].
  - intros [-> | ->]; unfold decode_distance.
    + destruct (read_bits_and_invert w (Z.to_nat ((30 - 2) / 2))). reflexivity.
    + destruct (read_bits_and_invert w (Z.to_nat ((31 - 2) / 2))). reflexivity.
Qed.

Lemma decode_distance_range_witness :
  (0 <= 29 <= 29 /\
   exists dist w', decode_distance 29 (start_world [255; 255]) = Ok (dist, w') /\
                   0 <= dist <= 32767) /\
  ((30 = 30 \/ 30 = 31) /\ decode_distance 30 (start_world [255; 255]) = Fault TableIndex).
Proof.
  destruct (decode_distance_range 29 (start_world [255; 255])) as [H1 _].
  destruct (decode_distance_range 30 (start_world [255; 255])) as [_ H2].
  split.
  - split; [lia|]. apply H1. lia.
  - split; [left; reflexivity|]. apply H2. left; reflexivity.
Defined.

(** ** The output of one block *)

Lemma read_bits_loop_out (k : nat) (v : Z) (w : world) :
  w_out (snd (read_bits_loop k v w)) = w_out w.
Proof.
  revert v w; induction k as [|k IH]; intros v w; [reflexivity|].
  cbn [read_bits_loop].
  pose proof (next_bit_out w) as Ho.
  destruct (next_bit w) as [b w1]. simpl in Ho. rewrite IH. exact Ho.
Qed.

Lemma read_bits_and_invert_out (w : world) (n : nat) :
  w_out (snd (read_bits_and_invert w n)) = w_out w.
Proof. apply read_bits_and_invert_loop_out. Qed.

Lemma walk_to_leaf_out :
  forall (n : huffman_node) (w : world) (c : Z) (w' : world),
  walk_to_leaf n w = Ok (c, w') -> w_out w' = w_out w.
Proof.
  fix IH 1. intros [c0 l r] w c w' H. cbn [walk_to_leaf] in H.
  destruct (negb (c0 =? -1)).
  - injection H as _ <-. reflexivity.
  - pose proof (next_bit_out w) as Ho.
    destruct (next_bit w) as [b w1]. cbn [snd] in Ho.
    destruct (b =? 1).
    + destruct r as [x|]; [|discriminate]. rewrite (IH x w1 c w' H). exact Ho.
    + destruct l as [x|]; [|discriminate]. rewrite (IH x w1 c w' H). exact Ho.
Qed.

Lemma decode_length_out (c : Z) (w w' : world) (len : Z) :
  decode_length c w = Ok (len, w') -> w_out w' = w_out w.
Proof.
  unfold decode_length. intros H.
  destruct (c <? 265); [injection H as _ <-; reflexivity|].
  destruct (c <? 285); [|injection H as _ <-; reflexivity].
  pose proof (read_bits_and_invert_out w (Z.to_nat ((c - 261) / 4))) as Ho.
  destruct (read_bits_and_invert w _) as [x w1]. cbn [snd] in Ho.
  destruct (table_get extra_length_addend (c - 265)); cbn in H; [|discriminate].
  injection H as _ <-. exact Ho.
Qed.

Lemma read_distance_symbol_out (droot : option huffman_node) (w w' : world) (d : Z) :
  read_distance_symbol droot w = Ok (d, w') -> w_out w' = w_out w.
Proof.
  destruct droot as [root|]; cbn [read_distance_symbol]; intros H.
  - exact (walk_to_leaf_out _ _ _ _ H).
  - injection H as H. unfold read_bits in H.
    pose proof (read_bits_loop_out 5 0 w) as Ho. rewrite H in Ho. exact Ho.
Qed.

Lemma decode_distance_out (d : Z) (w w' : world) (dist : Z) :
  decode_distance d w = Ok (dist, w') -> w_out w' = w_out w.
Proof.
  unfold decode_distance. intros H.
  destruct (3 <? d); [|injection H as _ <-; reflexivity].
  pose proof (read_bits_and_invert_out w (Z.to_nat ((d - 2) / 2))) as Ho.
  destruct (read_bits_and_invert w _) as [x w1]. cbn [snd] in Ho.
  destruct (table_get extra_dist_addend (d - 4)); cbn in H; [|discriminate].
  injection H as _ <-. exact Ho.
Qed.

Lemma put_byte_len (window window' : list Z) (b : Z) :
  put_byte window b = Ok window' -> Z.of_nat (length window') <= MAX_DISTANCE.
Proof.
  unfold put_byte. destruct (Z.ltb_spec (Z.of_nat (length window)) MAX_DISTANCE);
    [|discriminate].
  intros E. injection E as <-. rewrite length_app. simpl length. lia.
Qed.

Lemma copy_loop_len (len : nat) (back : Z) (window window' : list Z) :
  copy_loop len back window = Ok window' ->
  Z.of_nat (length window) <= MAX_DISTANCE -> Z.of_nat (length window') <= MAX_DISTANCE.
Proof.
  revert back window; induction len as [|len IH]; intros back window H Hw;
    cbn [copy_loop] in H.
  - injection H as <-. exact Hw.
  - destruct (back <? 0); [discriminate|].
    destruct (nth_error window (Z.to_nat back)) as [v|]; [|discriminate].
    destruct (put_byte window v) as [win|] eqn:E; cbn in H; [|discriminate].
    exact (IH _ _ H (put_byte_len _ _ _ E)).
Qed.

Lemma inflate_codes_loop_inv (fuel : nat) (lit node : huffman_node)
    (droot : option huffman_node) (window : list Z) (w : world)
    (r : option (list Z)) (w' : world) :
  inflate_codes_loop fuel lit node droot window w = Ok (r, w') ->
  Z.of_nat (length window) <= MAX_DISTANCE ->
  w_out w' = w_out w /\
  (forall win, r = Some win -> Z.of_nat (length win) <= MAX_DISTANCE).
Proof.
  revert node window w; induction fuel as [|fuel IH]; intros node window w H Hw;
    cbn [inflate_codes_loop] in H; [discriminate|].
  destruct (w_eof w).
  - injection H as <- <-. split; [reflexivity|discriminate].
  - pose proof (next_bit_out w) as Ho.
    destruct (next_bit w) as [b w1]. cbn [snd] in Ho.
    destruct (step node b) as [n|f]; cbn [res_bind] in H; [|discriminate].
    destruct (node_code n =? -1).
    { destruct (IH _ _ _ H Hw) as [H1 H2]. split; [congruence|exact H2]. }
    destruct (negb (node_code n <? 286)); [discriminate|].
    destruct (node_code n <? 256).
    { destruct (put_byte window (node_code n)) as [win|] eqn:E; cbn in H; [|discriminate].
      destruct (IH _ _ _ H (put_byte_len _ _ _ E)) as [H1 H2].
      split; [congruence|exact H2]. }
    destruct (node_code n =? 256).
    { injection H as <- <-. split; [exact Ho|]. intros win E. injection E as <-. exact Hw. }
    destruct (decode_length (node_code n) w1) as [[len w2]|f] eqn:E2; cbn in H;
      [|discriminate].
    destruct (read_distance_symbol droot w2) as [[d w3]|f] eqn:E3; cbn in H; [|discriminate].
    destruct (decode_distance d w3) as [[dist w4]|f] eqn:E4; cbn in H; [|discriminate].
    destruct (copy_backref window dist len) as [win|f] eqn:E5; cbn in H; [|discriminate].
    destruct (IH _ _ _ H (copy_loop_len _ _ _ _ E5 Hw)) as [H1 H2].
    split; [|exact H2].
    rewrite H1, (decode_distance_out _ _ _ _ E4), (read_distance_symbol_out _ _ _ _ E3),
      (decode_length_out _ _ _ _ E2). exact Ho.
Qed.

(** One call of [inflate_huffman_codes] writes its block to [fd] in one go
    at the end-of-block symbol: at most [MAX_DISTANCE] = 32768 bytes (a block
    decoding to more would write past [buf]), and nothing at all when it
    returns [false] at end of input. *)
Theorem inflate_huffman_codes_output (fuel : nat) (lit : huffman_node)
    (droot : option huffman_node) (w : world) (b : bool) (w' : world) :
  inflate_huffman_codes fuel lit droot w = Ok (b, w') ->
  exists out, w_out w' = w_out w ++ out /\ Z.of_nat (length out) <= 32768 /\
    (b = false -> out = []).
Proof.
  unfold inflate_huffman_codes. intros H.
  destruct (inflate_codes_loop fuel lit lit droot [] w) as [[r w1]|f] eqn:E;
    cbn in H; [|discriminate].
  destruct (inflate_codes_loop_inv _ _ _ _ _ _ _ _ E ltac:(unfold MAX_DISTANCE; cbn; lia)) as [H1 H2].
  destruct r as [win|].
  - injection H as <- <-. exists win. cbn [write_out w_out]. rewrite H1.
    split; [reflexivity|]. split; [|discriminate].
    specialize (H2 win eq_refl). unfold MAX_DISTANCE in H2. lia.
  - injection H as <- <-. exists []. rewrite H1, app_nil_r.
    split; [reflexivity|]. split; [cbn; lia|reflexivity].
Qed.

Lemma inflate_huffman_codes_output_witness :
  exists b w', inflate_huffman_codes 100 fixed_root None
                 (snd (read_bits_and_invert (snd (next_bit (start_world one_block_stream))) 2))
               = Ok (b, w') /\
  exists out, w_out w' =
    w_out (snd (read_bits_and_invert (snd (next_bit (start_world one_block_stream))) 2)) ++ out /\
    Z.of_nat (length out) <= 32768 /\ (b = false -> out = []).
Proof.
  destruct (inflate_huffman_codes 100 fixed_root None
              (snd (read_bits_and_invert (snd (next_bit (start_world one_block_stream))) 2)))
    as [[b w']|f] eqn:E.
  - exists b, w'. split; [reflexivity|]. exact (inflate_huffman_codes_output _ _ _ _ _ _ E).
  - vm_compute in E. discriminate.
Defined.

(** ** The code-length run expansion *)

Lemma heap_get_nth (a : list nat) (i : nat) :
  (i < length a)%nat -> heap_get a i = Ok (nth i a 0%nat).
Proof.
  intros H. unfold heap_get. rewrite (nth_error_nth' a 0%nat H). reflexivity.
Qed.

Lemma repeat_snoc {A : Type} (x : A) (n : nat) : repeat x n ++ [x] = repeat x (S n).
Proof. induction n as [|n IH]; [reflexivity|]. cbn. rewrite IH. reflexivity. Qed.

Lemma last_snoc_nat (a : list nat) (x d : nat) : last (a ++ [x]) d = x.
Proof. apply last_last. Qed.

Lemma nth_error_last (a : list nat) :
  (0 < length a)%nat -> nth_error a (length a - 1) = Some (last a 0%nat).
Proof.
  intros H. destruct (exists_last (l := a)) as [b [x ->]]; [destruct a; cbn in H; [lia|discriminate]|].
  rewrite last_snoc_nat, length_app. cbn [length].
  replace (length b + 1 - 1)%nat with (length b) by lia.
  rewrite nth_error_app2 by lia. rewrite Nat.sub_diag. reflexivity.
Qed.

Lemma repeat_loop_eq (n : nat) (code : Z) (total : nat) (a : list nat) :
  repeat_loop n code total a =
  if (n =? 0)%nat then Ok a
  else if (code =? 16) && (length a =? 0)%nat then Fault HeapOverread
  else if (length a + n <=? total)%nat
       then Ok (a ++ repeat (if code =? 16 then last a 0%nat else 0%nat) n)
       else Fault HeapOverflow.
Proof.
  revert a; induction n as [|n IH]; intros a; [reflexivity|].
  cbn [repeat_loop Nat.eqb].
  set (v := if code =? 16 then last a 0%nat else 0%nat).
  assert (Hv : forall b : nat -> res (list nat), (code =? 16) && (length a =? 0)%nat = false ->
    (let* x := (if code =? 16 then
                 (if (0 <? length a)%nat then heap_get a (length a - 1) else Fault HeapOverread)
               else Ok 0%nat) in b x) = b v).
  { intros b Hb. subst v. destruct (code =? 16); cbn in Hb |- *; [|reflexivity].
    destruct (Nat.eqb_spec (length a) 0); [discriminate|].
    replace ((0 <? length a)%nat) with true by (symmetry; apply Nat.ltb_lt; lia).
    unfold heap_get. rewrite nth_error_last by lia. destruct (length a); [lia|reflexivity]. }
  destruct ((code =? 16) && (length a =? 0)%nat) eqn:E.
  - apply andb_true_iff in E as [E1 E2]. rewrite E1. apply Nat.eqb_eq in E2. rewrite E2.
    reflexivity.
  - rewrite (Hv _ eq_refl). clear Hv.
    destruct (Nat.ltb_spec (length a) total) as [Hlt|Hge].
    + rewrite IH. rewrite length_app. cbn [length].
      assert (Hcv : (if code =? 16 then last (a ++ [v]) 0%nat else 0%nat) = v).
      { subst v. destruct (code =? 16); [apply last_snoc_nat|reflexivity]. }
      rewrite Hcv.
      assert (E' : ((code =? 16) && (length a + 1 =? 0)%nat) = false).
      { destruct (code =? 16); [|reflexivity]. cbn. apply Nat.eqb_neq. lia. }
      rewrite E'.
      destruct (Nat.eqb_spec n 0) as [->|Hn].
      * replace ((length a + 1 <=? total)%nat) with true by (symmetry; apply Nat.leb_le; lia).
        reflexivity.
      * replace ((length a + 1 + n <=? total)%nat) with ((length a + S n <=? total)%nat)
          by (f_equal; lia).
        destruct (length a + S n <=? total)%nat; [|reflexivity].
        rewrite <- app_assoc. reflexivity.
    + replace ((length a + S n <=? total)%nat) with false
        by (symmetry; apply Nat.leb_gt; lia). reflexivity.
Qed.

(** The loop [while(repeat_length--)] appends [repeat_length] copies of
    [alphabet[i - 1]] (code 16) or of 0 (codes 17 and 18) to the entries
    decoded so far.  It reads before the array when code 16 comes first, and
    writes past the [hlit + hdist + 258] entries of [alphabet] when the run is
    too long; a run of length 0 changes nothing. *)
Theorem repeat_loop_closed (n : nat) (code : Z) (total : nat) (a : list nat) :
  repeat_loop n code total a =
  if (n =? 0)%nat then Ok a
  else if (code =? 16) && (length a =? 0)%nat then Fault HeapOverread
  else if (length a + n <=? total)%nat
       then Ok (a ++ repeat (if code =? 16 then last a 0%nat else 0%nat) n)
       else Fault HeapOverflow.
Proof. exact (repeat_loop_eq n code total a). Qed.

(** The repeat length read for codes 16, 17 and 18. *)
Theorem read_repeat_length_range (c : Z) (w : world) :
  16 <= c <= 18 ->
  exists n w', read_repeat_length c w = Ok (n, w') /\
    (c = 16 -> (3 <= n <= 6)%nat) /\ (c = 17 -> (3 <= n <= 10)%nat) /\
    (c = 18 -> (11 <= n <= 138)%nat).
Proof.
  intros Hc. unfold read_repeat_length.
  assert (Hcase : c = 16 \/ c = 17 \/ c = 18) by lia.
  destruct Hcase as [-> | [-> | ->]]; cbn [Z.eqb Pos.eqb].
  - pose proof (read_bits_and_invert_range 2 w ltac:(lia)) as Hr.
    destruct (read_bits_and_invert w 2) as [v w1]. cbn [fst] in Hr.
    exists (Z.to_nat (v + 3)), w1. split; [reflexivity|].
    split; [intros _; cbn in Hr; lia|]. split; intros E; discriminate E.
  - pose proof (read_bits_and_invert_range 3 w ltac:(lia)) as Hr.
    destruct (read_bits_and_invert w 3) as [v w1]. cbn [fst] in Hr.
    exists (Z.to_nat (v + 3)), w1. split; [reflexivity|].
    split; [intros E; discriminate E|]. split; [intros _; cbn in Hr; lia|intros E; discriminate E].
  - pose proof (read_bits_and_invert_range 7 w ltac:(lia)) as Hr.
    destruct (read_bits_and_invert w 7) as [v w1]. cbn [fst] in Hr.
    exists (Z.to_nat (v + 11)), w1. split; [reflexivity|].
    split; [intros E; discriminate E|]. split; [intros E; discriminate E|intros _; cbn in Hr; lia].
Qed.

Lemma read_repeat_length_range_witness :
  16 <= 18 <= 18 /\
  exists n w', read_repeat_length 18 (start_world [255]) = Ok (n, w') /\
    (18 = 16 -> (3 <= n <= 6)%nat) /\ (18 = 17 -> (3 <= n <= 10)%nat) /\
    (18 = 18 -> (11 <= n <= 138)%nat).
Proof.
  split; [lia|]. apply (read_repeat_length_range 18 (start_world [255])). lia.
Defined.

(** ** The ranges of the code-length code *)

Lemma firstn_succ_nth (a : list nat) (i : nat) :
  (i < length a)%nat -> firstn (S i) a = firstn i a ++ [nth i a 0%nat].
Proof.
  revert i; induction a as [|x a IH]; intros i H; cbn in H; [lia|].
  destruct i as [|i]; [reflexivity|].
  change (firstn (S (S i)) (x :: a)) with (x :: firstn (S i) a).
  change (firstn (S i) (x :: a)) with (x :: firstn i a). cbn [nth app].
  rewrite (IH i ltac:(lia)). reflexivity.
Qed.

Lemma ranges_wf_extend (l : list huffman_range) (s : nat) (h r : huffman_range) :
  ranges_wf s (l ++ [h]) -> range_end r = S (range_end h) -> ranges_wf s (l ++ [r]).
Proof.
  revert s; induction l as [|x l IH]; intros s Hw Hr; cbn [ranges_wf lens_from app] in Hw |- *.
  - destruct Hw as [H1 _]. split; [lia|exact I].
  - destruct Hw as [H1 H2]. split; [exact H1|exact (IH _ H2 Hr)].
Qed.

Lemma ranges_wf_push (l : list huffman_range) (s : nat) (h r : huffman_range) :
  ranges_wf s (l ++ [h]) -> range_end r = S (range_end h) -> ranges_wf s ((l ++ [h]) ++ [r]).
Proof.
  revert s; induction l as [|x l IH]; intros s Hw Hr; cbn [ranges_wf lens_from app] in Hw |- *.
  - destruct Hw as [H1 _]. repeat split; lia.
  - destruct Hw as [H1 H2]. split; [exact H1|exact (IH _ H2 Hr)].
Qed.

Lemma lens_from_extend (l : list huffman_range) (s : nat) (h r : huffman_range) :
  ranges_wf s (l ++ [h]) -> range_end r = S (range_end h) -> range_bits r = range_bits h ->
  lens_from s (l ++ [r]) = lens_from s (l ++ [h]) ++ [range_bits h].
Proof.
  revert s; induction l as [|x l IH]; intros s Hw Hr Hb; cbn [ranges_wf lens_from app] in Hw |- *.
  - destruct Hw as [H1 _]. rewrite Hr, Hb, !app_nil_r.
    replace (S (S (range_end h)) - s)%nat with (S (S (range_end h) - s)) by lia.
    rewrite <- repeat_snoc. reflexivity.
  - destruct Hw as [H1 H2]. rewrite (IH _ H2 Hr Hb). apply app_assoc.
Qed.

Lemma lens_from_push (l : list huffman_range) (s : nat) (h r : huffman_range) :
  ranges_wf s (l ++ [h]) -> range_end r = S (range_end h) ->
  lens_from s ((l ++ [h]) ++ [r]) = lens_from s (l ++ [h]) ++ [range_bits r].
Proof.
  revert s; induction l as [|x l IH]; intros s Hw Hr; cbn [ranges_wf lens_from app] in Hw |- *.
  - rewrite Hr, !app_nil_r. replace (S (S (range_end h)) - S (range_end h))%nat with 1%nat by lia.
    reflexivity.
  - destruct Hw as [H1 H2]. rewrite (IH _ H2 Hr). apply app_assoc.
Qed.

Lemma ranges_loop_runs (a : list nat) (k : nat) :
  forall (i : nat) (h : huffman_range) (t : list huffman_range),
  (1 <= i)%nat -> (i + k <= length a)%nat ->
  h = mkRange (i - 1) (nth (i - 1) a 0%nat) ->
  ranges_wf 0 (rev t ++ [h]) -> lens_from 0 (rev t ++ [h]) = firstn i a ->
  exists h' t', ranges_loop a 0 i k (h :: t) = Ok (h' :: t') /\
    h' = mkRange (i + k - 1) (nth (i + k - 1) a 0%nat) /\
    ranges_wf 0 (rev t' ++ [h']) /\ lens_from 0 (rev t' ++ [h']) = firstn (i + k) a.
Proof.
  induction k as [|k IH]; intros i h t Hi Hk Hh Hwf Hl.
  - exists h, t. rewrite Nat.add_0_r. auto.
  - cbn [ranges_loop].
    rewrite (heap_get_nth a i) by lia. cbn [res_bind].
    replace ((0 <? i)%nat) with true by (symmetry; apply Nat.ltb_lt; lia).
    rewrite (heap_get_nth a (i - 1)) by lia. cbn [res_bind].
    rewrite Nat.sub_0_r.
    assert (Hs : firstn (S i) a = firstn i a ++ [nth i a 0%nat]) by (apply firstn_succ_nth; lia).
    replace (i + S k)%nat with (S i + k)%nat by lia.
    assert (He : range_end (mkRange i (nth i a 0%nat)) = S (range_end h)) by (subst h; cbn; lia).
    destruct (Nat.eqb_spec (nth i a 0%nat) (nth (i - 1) a 0%nat)) as [E|E]; cbn [negb tl].
    + apply IH.
      * lia.
      * lia.
      * replace (S i - 1)%nat with i by lia. reflexivity.
      * exact (ranges_wf_extend _ _ _ _ Hwf He).
      * rewrite (lens_from_extend _ _ _ _ Hwf He) by (subst h; exact E).
        rewrite Hl, Hs; try subst h; cbn [range_bits]; rewrite E; reflexivity.
    + apply IH.
      * lia.
      * lia.
      * replace (S i - 1)%nat with i by lia. reflexivity.
      * cbn [rev]. exact (ranges_wf_push _ _ _ _ Hwf He).
      * cbn [rev]. rewrite (lens_from_push _ _ _ _ Hwf He), Hl, Hs. reflexivity.
Qed.

Lemma ranges_loop_start (a : list nat) (k : nat) :
  (0 < length a)%nat -> ranges_loop a 0 0 (S k) [] = ranges_loop a 0 1 k [mkRange 0 (nth 0 a 0%nat)].
Proof. intros H. destruct a as [|x a]; [cbn in H; lia|reflexivity]. Qed.

(** Lines 202-212: the ranges built from the 19 code lengths are well formed
    (ends strictly increasing from 0), the last one ends at symbol 18, and
    expanding them gives back exactly the 19 code lengths. *)
Theorem code_length_ranges_roundtrip (cl : list nat) :
  length cl = 19%nat ->
  exists crs, code_length_ranges cl = Ok crs /\ ranges_wf 0 crs /\
    last_end crs = 18%nat /\ lens_from 0 crs = cl.
Proof.
  intros Hl. unfold code_length_ranges.
  rewrite ranges_loop_start by lia.
  destruct (ranges_loop_runs cl 18 1 (mkRange 0 (nth 0 cl 0%nat)) [])
    as [h' [t' [H1 [H2 [H3 H4]]]]].
  - lia.
  - lia.
  - reflexivity.
  - cbn. split; [lia|exact I].
  - destruct cl as [|x cl]; [discriminate|]. reflexivity.
  - rewrite H1. cbn [res_bind]. eexists. split; [reflexivity|].
    unfold first_ranges. rewrite firstn_all2 by (rewrite length_rev; lia).
    cbn [rev]. split; [exact H3|]. split.
    + unfold last_end. rewrite last_last, H2. reflexivity.
    + rewrite H4. apply firstn_all2. lia.
Qed.

Lemma code_length_ranges_roundtrip_witness :
  length [2;2;2;0;0;0;0;0;1;1;0;0;0;0;0;0;0;0;0]%nat = 19%nat /\
  exists crs, code_length_ranges [2;2;2;0;0;0;0;0;1;1;0;0;0;0;0;0;0;0;0]%nat = Ok crs /\
    ranges_wf 0 crs /\ last_end crs = 18%nat /\
    lens_from 0 crs = [2;2;2;0;0;0;0;0;1;1;0;0;0;0;0;0;0;0;0]%nat.
Proof.
  split; [reflexivity|]. apply code_length_ranges_roundtrip. reflexivity.
Defined.

(** ** The code lengths of the code-length code *)

Lemma nth_replace (l : list nat) (o j x : nat) :
  (o < length l)%nat ->
  nth j (firstn o l ++ [x] ++ skipn (S o) l) 0%nat = if (j =? o)%nat then x else nth j l 0%nat.
Proof.
  revert o j; induction l as [|y l IH]; intros o j H; cbn [length] in H; [lia|].
  destruct o as [|o], j as [|j]; try reflexivity.
  change (nth (S j) (firstn (S o) (y :: l) ++ [x] ++ skipn (S (S o)) (y :: l)) 0%nat)
    with (nth j (firstn o l ++ [x] ++ skipn (S o) l) 0%nat).
  rewrite (IH o j ltac:(lia)). reflexivity.
Qed.

Lemma read_code_lengths_gen (offs : list nat) :
  forall (cl : list nat) (w : world),
  (forall o, In o offs -> (o < length cl)%nat) ->
  length (fst (read_code_lengths offs cl w)) = length cl /\
  (forall j, ~ In j offs -> nth j (fst (read_code_lengths offs cl w)) 0%nat = nth j cl 0%nat) /\
  ((forall j, (nth j cl 0 < 8)%nat) -> forall j, (nth j (fst (read_code_lengths offs cl w)) 0 < 8)%nat).
Proof.
  induction offs as [|o offs IH]; intros cl w Ho; cbn [read_code_lengths].
  - cbn [fst]. split; [reflexivity|]. split; [reflexivity|auto].
  - pose proof (read_bits_and_invert_range 3 w ltac:(lia)) as Hr.
    destruct (read_bits_and_invert w 3) as [v w1]. cbn [fst] in Hr.
    assert (Hlo : (o < length cl)%nat) by (apply Ho; left; reflexivity).
    set (cl1 := firstn o cl ++ [Z.to_nat v] ++ skipn (S o) cl).
    assert (Hl1 : length cl1 = length cl).
    { subst cl1. rewrite !length_app, length_firstn, length_skipn. cbn [length]. lia. }
    destruct (IH cl1 w1) as [H1 [H2 H3]].
    { intros o' Ho'. rewrite Hl1. apply Ho. right. exact Ho'. }
    split; [congruence|]. split.
    + intros j Hj. rewrite H2 by (intros Hin; apply Hj; right; exact Hin).
      subst cl1. rewrite nth_replace by exact Hlo.
      destruct (Nat.eqb_spec j o) as [->|]; [exfalso; apply Hj; left; reflexivity|reflexivity].
    + intros Hb j. apply H3. intros j'. subst cl1. rewrite nth_replace by exact Hlo.
      destruct (j' =? o)%nat; [cbn in Hr; lia|apply Hb].
Qed.

(** Lines 196-200: after [memset] and the [hclen + 4] reads, [code_lengths]
    holds 19 entries, each below 8 (a 3-bit field), and every entry whose
    symbol is not among the first [hclen + 4] of [code_length_offsets]
    keeps the value 0. *)
Theorem read_code_lengths_shape (n : nat) (w : world) :
  let cl := fst (read_code_lengths (firstn n code_length_offsets) (repeat 0%nat 19) w) in
  length cl = 19%nat /\ (forall j, (nth j cl 0 < 8)%nat) /\
  (forall j, ~ In j (firstn n code_length_offsets) -> nth j cl 0%nat = 0%nat).
Proof.
  intros cl.
  assert (Hall : forall o, In o code_length_offsets -> (o < 19)%nat).
  { intros o Ho. cbn in Ho. repeat (destruct Ho as [<-|Ho]; [lia|]). destruct Ho. }
  destruct (read_code_lengths_gen (firstn n code_length_offsets) (repeat 0%nat 19) w)
    as [H1 [H2 H3]].
  { intros o Ho. rewrite repeat_length. apply Hall.
    rewrite <- (firstn_skipn n code_length_offsets). apply in_or_app. left. exact Ho. }
  subst cl. split; [rewrite H1; apply repeat_length|]. split.
  - apply H3. intros j. rewrite nth_repeat. lia.
  - intros j Hj. rewrite H2 by exact Hj. apply nth_repeat.
Qed.

(** ** The combined length vector *)

Lemma last_le15 (a : list nat) :
  Forall (fun x => (x <= 15)%nat) a -> (last a 0 <= 15)%nat.
Proof.
  induction a as [|x a IH]; intros H; [cbn; lia|].
  inversion H as [|? ? Hx Ha]; subst.
  destruct a as [|y a']; [exact Hx|exact (IH Ha)].
Qed.

Lemma alphabet_loop_inv (fuel total : nat) (root : huffman_node) :
  forall (node : huffman_node) (alphabet : list nat) (w : world) (alphabet' : list nat) (w' : world),
  alphabet_loop fuel total root node alphabet w = Ok (alphabet', w') ->
  (length alphabet <= total)%nat -> Forall (fun x => (x <= 15)%nat) alphabet ->
  length alphabet' = total /\ Forall (fun x => (x <= 15)%nat) alphabet'.
Proof.
  induction fuel as [|f IH]; intros node alphabet w al' w' H Hl Hf;
    cbn [alphabet_loop] in H; [discriminate|].
  destruct (Nat.ltb_spec (length alphabet) total) as [Hlt|Hge]; cbn [negb] in H.
  - destruct (next_bit w) as [b w1].
    destruct (step node b) as [n|e]; cbn [res_bind] in H; [|discriminate].
    cbv zeta in H.
    destruct (node_code n =? -1). { exact (IH _ _ _ _ _ H Hl Hf). }
    destruct (Z.ltb_spec 15 (node_code n)) as [Hc|Hc].
    + destruct (read_repeat_length (node_code n) w1) as [[rl w2]|e]; cbn [res_bind] in H;
        [|discriminate].
      rewrite repeat_loop_eq in H.
      destruct (rl =? 0)%nat. { cbn [res_bind] in H. exact (IH _ _ _ _ _ H Hl Hf). }
      destruct ((node_code n =? 16) && (length alphabet =? 0)%nat); [discriminate|].
      destruct (Nat.leb_spec (length alphabet + rl) total) as [Hle|]; [|discriminate].
      cbn [res_bind] in H.
      apply (IH _ _ _ _ _ H).
      * rewrite length_app, repeat_length. lia.
      * apply Forall_app. split; [exact Hf|]. apply Forall_forall. intros x Hx.
        apply repeat_spec in Hx. subst x.
        destruct (node_code n =? 16); [apply last_le15; exact Hf|lia].
    + apply (IH _ _ _ _ _ H).
      * rewrite length_app. cbn [length]. lia.
      * apply Forall_app. split; [exact Hf|]. constructor; [lia|constructor].
  - injection H as <- <-. split; [lia|exact Hf].
Qed.

(** Lines 192-253: when the code lengths of a dynamic block decode,
    [hlit] and [hdist] are below 32, the combined vector holds exactly
    [hlit + hdist + 258] entries (a repeat run reaching past them is a
    write past [alphabet]) and every entry is a code length of at most 15:
    the repeat codes 16, 17 and 18 are never stored. *)
Theorem read_dynamic_alphabet_shape (fuel : nat) (w : world)
    (hlit hdist : nat) (alphabet : list nat) (w' : world) :
  read_dynamic_alphabet fuel w = Ok (hlit, hdist, alphabet, w') ->
  (hlit < 32)%nat /\ (hdist < 32)%nat /\ length alphabet = (hlit + hdist + 258)%nat /\
  Forall (fun x => (x <= 15)%nat) alphabet.
Proof.
  unfold read_dynamic_alphabet. intros H.
  pose proof (read_bits_and_invert_range 5 w ltac:(lia)) as R1.
  destruct (read_bits_and_invert w 5) as [hl w1]. cbn [fst] in R1.
  pose proof (read_bits_and_invert_range 5 w1 ltac:(lia)) as R2.
  destruct (read_bits_and_invert w1 5) as [hd w2]. cbn [fst] in R2.
  destruct (read_bits_and_invert w2 4) as [hc w3].
  destruct (read_code_lengths _ _ w3) as [cls w4].
  destruct (code_length_ranges cls) as [crs|e]; cbn [res_bind] in H; [|discriminate].
  destruct (build_huffman_tree crs) as [root|e]; cbn [res_bind] in H; [|discriminate].
  cbv zeta in H.
  destruct (alphabet_loop _ _ _ _ _ _) as [[al w5]|e] eqn:E; cbn [res_bind] in H;
    [|discriminate].
  injection H as <- <- <- <-.
  destruct (alphabet_loop_inv _ _ _ _ _ _ _ _ E ltac:(cbn; lia) (Forall_nil _)) as [H1 H2].
  cbn in R1, R2. split; [lia|]. split; [lia|]. split; [rewrite H1; lia|exact H2].
Qed.

Lemma read_dynamic_alphabet_shape_witness :
  exists hlit hdist alphabet w',
    read_dynamic_alphabet 1000
      (snd (read_bits_and_invert (snd (next_bit (start_world dynamic_block_stream))) 2))
    = Ok (hlit, hdist, alphabet, w') /\
    (hlit < 32)%nat /\ (hdist < 32)%nat /\ length alphabet = (hlit + hdist + 258)%nat /\
    Forall (fun x => (x <= 15)%nat) alphabet.
Proof.
  destruct (read_dynamic_alphabet 1000
      (snd (read_bits_and_invert (snd (next_bit (start_world dynamic_block_stream))) 2)))
    as [[[[hlit hdist] alphabet] w']|f] eqn:E.
  - exists hlit, hdist, alphabet, w'. split; [reflexivity|].
    exact (read_dynamic_alphabet_shape _ _ _ _ _ _ E).
  - vm_compute in E. discriminate.
Defined.
